(** * Assignment2/assignment2.py: the job-distribution protocol

    A shallow embedding of the coordinator ([runserver]), the worker loop
    ([peon]) and the report writer ([csv_writer]) of
    [Assignment2/assignment2.py], together with the two queues served by
    the [multiprocessing] manager.

    Every process of the program is a state machine whose steps are the
    operations it performs on the shared queues; a run of the whole
    program is an interleaving of such steps, chosen by a schedule.  The
    console output ([print]) has no effect on the protocol and is left
    out; everything else a process does between two queue operations is
    part of the step that ends in the later one.  What the interpreter
    does when a process exits is not part of the functions embedded
    here. *)

From stdpp Require Import base list strings.
From Stdlib Require Import NArith ZArith Ascii Lia.

(** ** Module constants *)

Definition POISONPILL : string := "MEMENTOMORI".
Definition ERROR : string := "DOH".

(** ** Exceptions

    The handlers of [peon] tell three kinds of exception apart:
    [NameError] (with its built-in subclass [UnboundLocalError]),
    [queue.Empty], and everything else. *)

Inductive exn : Type :=
| NameError
| UnboundLocalError
| QueueEmpty
| OtherError (cls : string).

(** [except NameError] *)
Definition isinstance_NameError (e : exn) : bool :=
  match e with
  | NameError | UnboundLocalError => true
  | _ => false
  end.

(** [except queue.Empty] *)
Definition isinstance_Empty (e : exn) : bool :=
  match e with
  | QueueEmpty => true
  | _ => false
  end.

(** ** Python floats, as far as ["{:.2f}".format] tells them apart

    A finite float is [(-1)^neg * m * 2^e]. *)

Inductive pyfloat : Type :=
| FFinite (neg : bool) (m : N) (e : Z)
| FInf (neg : bool)
| FNan.

Definition is_finite (x : pyfloat) : bool :=
  match x with
  | FFinite _ _ _ => true
  | _ => false
  end.

(** Decimal digits of a natural number, most significant first. *)
Definition digit_char (d : N) : ascii := ascii_of_N (48 + d).

Fixpoint digits_fuel (fuel : nat) (n : N) : list ascii :=
  match fuel with
  | O => [digit_char (n mod 10)]
  | S f =>
      if (n <? 10)%N then [digit_char n]
      else digits_fuel f (n / 10) ++ [digit_char (n mod 10)]
  end.

Definition digits (n : N) : list ascii := digits_fuel (N.to_nat (N.size n)) n.

(** Rounding [num / den] to the nearest integer, ties to even. *)
Definition round_half_even (num den : N) : N :=
  let q := (num / den)%N in
  let r := (num mod den)%N in
  if (2 * r <? den)%N then q
  else if (den <? 2 * r)%N then (q + 1)%N
  else if N.even q then q else (q + 1)%N.

(** The magnitude of a finite float in hundredths, correctly rounded. *)
Definition hundredths (m : N) (e : Z) : N :=
  match e with
  | Z0 => (m * 100)%N
  | Zpos p => (m * 2 ^ Npos p * 100)%N
  | Zneg p => round_half_even (m * 100) (2 ^ Npos p)
  end.

(** ["{:.2f}".format(x)] *)
Definition format_2f_chars (x : pyfloat) : list ascii :=
  match x with
  | FNan => String.list_ascii_of_string "nan"
  | FInf neg =>
      (if neg then ["-"%char] else []) ++ String.list_ascii_of_string "inf"
  | FFinite neg m e =>
      let h := hundredths m e in
      (if neg then ["-"%char] else [])
        ++ digits (h / 100)
        ++ ["."%char; digit_char ((h / 10) mod 10); digit_char (h mod 10)]
  end.

Definition format_2f (x : pyfloat) : string :=
  String.string_of_list_ascii (format_2f_chars x).

Definition is_digit (c : ascii) : bool :=
  let n := N_of_ascii c in ((48 <=? n) && (n <=? 57))%N.

(** One or more digits, after an optional minus sign. *)
Definition is_integer_part (cs : list ascii) : bool :=
  let ds := match cs with
            | c :: cs' => if bool_decide (c = "-"%char) then cs' else cs
            | [] => []
            end in
  match ds with
  | [] => false
  | _ :: _ => forallb is_digit ds
  end.

(** The text is an integer part, a point and exactly two digits. *)
Definition two_decimals (f : string) : bool :=
  match reverse (String.list_ascii_of_string f) with
  | d2 :: d1 :: dot :: ip =>
      is_digit d2 && is_digit d1 && bool_decide (dot = "."%char)
      && is_integer_part (reverse ip)
  | _ => false
  end.

(** Python's [str(x)], as [csv.writer] applies it to a field that is
    not a string. *)
Class Str (A : Type) := str : A → string.

Fixpoint count {A : Type} (p : A → bool) (l : list A) : nat :=
  match l with
  | [] => 0
  | x :: l' => Nat.b2n (p x) + count p l'
  end.

(** ** Values on the queues *)

Section Protocol.

(** [chunk] is what [split_file] yields, [metric] what [read_file]
    returns, [key] the keys of the mapping [calc_avg] returns; the module
    [fastq_functions] that defines them is external to this file. *)
Context {chunk metric key : Type} `{EqDecision key} `{Str key}.

(** The result of calling a Python function. *)
Inductive outcome : Type :=
| Returned (m : metric)
| Raised (e : exn).

(** [{'fn': ..., 'args': ...}] *)
Record job : Type := Job { fn : chunk → outcome; args : chunk }.

(** What travels on the job queue: a job dictionary or a string. *)
Inductive pyval : Type :=
| VJob (j : job)
| VStr (s : string).

(** The value of the ['result'] entry: a metric or a string. *)
Inductive outval : Type :=
| OMetric (m : metric)
| OStr (s : string).

(** [{'job': ..., 'result': ...}] *)
Record result : Type := Result { r_job : job; r_result : outval }.

(** [job == POISONPILL]: a dictionary never equals a string. *)
Definition eq_POISONPILL (v : pyval) : bool :=
  match v with
  | VJob _ => false
  | VStr s => bool_decide (s = POISONPILL)
  end.

Definition is_job (v : pyval) : bool :=
  match v with
  | VJob _ => true
  | VStr _ => false
  end.

(** A Python [dict] in insertion order. *)
Definition dict : Type := list (key * pyfloat).

Definition keys (d : dict) : list key := d.*1.

(** [d[k]]; [None] stands for [KeyError]. *)
Fixpoint getitem (d : dict) (k : key) : option pyfloat :=
  match d with
  | [] => None
  | (k', v) :: d' => if decide (k = k') then Some v else getitem d' k
  end.

(** The [FastQC] object, with the two methods the protocol calls. *)
Record FastQC : Type := {
  read_file : chunk → outcome;
  calc_avg : list result → bool → dict
}.

(** ** The queue service

    The two [queue.Queue] objects live in the manager's server process;
    every operation goes through a proxy and fails once the server has
    been shut down (or before it was started). *)

Record service : Type := Service {
  serving : bool;
  job_q : list pyval;
  result_q : list result
}.

Definition no_service : service := Service false [] [].

(** The outcome of a proxy operation. *)
Inductive reply (A : Type) : Type :=
| Got (a : A) (sv : service)
| Empty
| Refused.
Arguments Got {A} a sv.
Arguments Empty {A}.
Arguments Refused {A}.

(** [job_q.put(v)] *)
Definition job_put (v : pyval) (sv : service) : option service :=
  if serving sv
  then Some (Service true (job_q sv ++ [v]) (result_q sv))
  else None.

(** [job_q.get_nowait()] *)
Definition job_get_nowait (sv : service) : reply pyval :=
  if serving sv then
    match job_q sv with
    | [] => Empty
    | v :: q => Got v (Service true q (result_q sv))
    end
  else Refused.

(** [result_q.put(r)] *)
Definition result_put (r : result) (sv : service) : option service :=
  if serving sv
  then Some (Service true (job_q sv) (result_q sv ++ [r]))
  else None.

(** [result_q.get_nowait()] *)
Definition result_get_nowait (sv : service) : reply result :=
  if serving sv then
    match result_q sv with
    | [] => Empty
    | r :: q => Got r (Service true (job_q sv) q)
    end
  else Refused.

(** ** Observable events *)

Inductive event : Type :=
| EvStart (host : string) (port : N)
| EvShutdown
| EvSleep (secs : nat)
| EvJobPut (v : pyval)
| EvJobGet (o : option pyval)
| EvResultPut (r : result)
| EvResultGet (o : option result)
| EvCall (j : job)
| EvWrite (path : string) (rows : list (list string)).

(** ** The worker: [peon]

    A worker process is at one of the three queue operations of the
    loop, at the call of the job function, or has left the loop.  The
    call sits in the inner [try] (with [except NameError]), which sits
    in the outer one (with [except queue.Empty]). *)

Inductive wstate : Type :=
| WFetching                 (* at [job_q.get_nowait()] *)
| WExecuting (v : pyval)    (* at [job['fn'](job['args'])] *)
| WReporting (r : result)   (* at [result_q.put(...)] *)
| WRetiring                 (* at [job_q.put(POISONPILL)] *)
| WTerminated               (* [return] *)
| WCrashed (e : exn).       (* an exception left the loop *)

Definition ConnectionError : exn := OtherError "ConnectionError".
Definition TypeError : exn := OtherError "TypeError".

Definition peon_step (w : wstate) (sv : service)
  : wstate * service * list event :=
  match w with
  | WFetching =>
      match job_get_nowait sv with
      | Refused => (WCrashed ConnectionError, sv, [])
      | Empty => (WFetching, sv, [EvJobGet None; EvSleep 1])
      | Got v sv' =>
          if eq_POISONPILL v
          then (WRetiring, sv', [EvJobGet (Some v)])
          else (WExecuting v, sv', [EvJobGet (Some v)])
      end
  | WRetiring =>
      match job_put (VStr POISONPILL) sv with
      | Some sv' => (WTerminated, sv', [EvJobPut (VStr POISONPILL)])
      | None => (WCrashed ConnectionError, sv, [])
      end
  | WExecuting (VStr _) => (WCrashed TypeError, sv, [])
  | WExecuting (VJob j) =>
      match fn j (args j) with
      | Returned m => (WReporting (Result j (OMetric m)), sv, [EvCall j])
      | Raised e =>
          if isinstance_NameError e
          then (WReporting (Result j (OStr ERROR)), sv, [EvCall j])
          else if isinstance_Empty e
          then (WFetching, sv, [EvCall j; EvSleep 1])
          else (WCrashed e, sv, [EvCall j])
      end
  | WReporting r =>
      match result_put r sv with
      | Some sv' => (WFetching, sv', [EvResultPut r])
      | None => (WCrashed ConnectionError, sv, [])
      end
  | WTerminated => (WTerminated, sv, [])
  | WCrashed e => (WCrashed e, sv, [])
  end.

(** ** The report: [csv_writer] *)

Definition header : list string := ["base position"; "phred score"].

Definition data_row (d : dict) (k : key) : option (list string) :=
  v ← getitem d k; Some [str k; format_2f v].

(** The file name and the rows written; [None] if a lookup raised. *)
Definition csv_writer (phred_dict : dict) (outfile : option string)
  : option (string * list (list string)) :=
  let outfile := match outfile with
                 | None => "outfile.csv"
                 | Some f => f
                 end in
  rows ← mapM (data_row phred_dict) (keys phred_dict);
  Some (outfile, header :: rows).

(** ** The coordinator: [runserver] *)

Record server_args : Type := ServerArgs {
  obj : FastQC;
  chunks : list chunk;
  host : string;
  port : N;
  outfile : option string
}.

Inductive cphase : Type :=
| CStart                        (* at [make_server_manager] *)
| CNothing                      (* returned from the [if not chunks] *)
| CSubmit (rest : list chunk)   (* in the [for chunk in chunks] loop *)
| CCollect                      (* in the [while True] loop *)
| CTerminate                    (* at [shared_job_q.put(POISONPILL)] *)
| CGrace                        (* at [time.sleep(5)] *)
| CShutdown                     (* at [manager.shutdown()] *)
| CFinalize                     (* at [csv_writer(...)] *)
| CDone                         (* returned at the end *)
| CCrashed (e : exn).           (* an exception left the function *)

(** The program point of [runserver] and its local [results]. *)
Record cstate : Type := CState { pc : cphase; results : list result }.

(** [{'fn': obj.read_file, 'args': (chunk)}] *)
Definition mk_job (a : server_args) (c : chunk) : pyval :=
  VJob (Job (read_file (obj a)) c).

(** One step of [runserver].  The first step is [make_server_manager]
    (fresh queues, [manager.start()], on an address taken to be free),
    the two proxy look-ups and the [if not chunks] test; each later step
    ends in one queue operation, one [time.sleep], [manager.shutdown()]
    or the call of [csv_writer]. *)
Definition runserver_step (a : server_args) (c : cstate) (sv : service)
  : cstate * service * list event :=
  match pc c with
  | CStart =>
      let sv' := Service true [] [] in
      match chunks a with
      | [] => (CState CNothing (results c), sv', [EvStart (host a) (port a)])
      | _ :: _ =>
          (CState (CSubmit (chunks a)) (results c), sv',
           [EvStart (host a) (port a)])
      end
  | CNothing => (c, sv, [])
  | CSubmit (ch :: rest) =>
      match job_put (mk_job a ch) sv with
      | Some sv' => (CState (CSubmit rest) (results c), sv',
                     [EvJobPut (mk_job a ch)])
      | None => (CState (CCrashed ConnectionError) (results c), sv, [])
      end
  | CSubmit [] => (CState CCollect [], sv, [EvSleep 2])
  | CCollect =>
      match result_get_nowait sv with
      | Refused => (CState (CCrashed ConnectionError) (results c), sv, [])
      | Empty => (c, sv, [EvResultGet None; EvSleep 1])
      | Got r sv' =>
          let results' := results c ++ [r] in
          if decide (length results' = length (chunks a))
          then (CState CTerminate results', sv', [EvResultGet (Some r)])
          else (CState CCollect results', sv', [EvResultGet (Some r)])
      end
  | CTerminate =>
      match job_put (VStr POISONPILL) sv with
      | Some sv' => (CState CGrace (results c), sv',
                     [EvJobPut (VStr POISONPILL)])
      | None => (CState (CCrashed ConnectionError) (results c), sv, [])
      end
  | CGrace => (CState CShutdown (results c), sv, [EvSleep 5])
  | CShutdown =>
      (CState CFinalize (results c),
       Service false (job_q sv) (result_q sv), [EvShutdown])
  | CFinalize =>
      match csv_writer (calc_avg (obj a) (results c) true) (outfile a) with
      | Some (path, rows) =>
          (CState CDone (results c), sv, [EvWrite path rows])
      | None => (CState (CCrashed (OtherError "KeyError")) (results c), sv, [])
      end
  | CDone => (c, sv, [])
  | CCrashed _ => (c, sv, [])
  end.

(** ** The whole program *)

Inductive actor : Type :=
| Coordinator
| Worker (i : nat).

Record system : Type := System {
  svc : service;
  coord : cstate;
  peons : list wstate;
  trace : list (actor * event)
}.

Definition init : system := System no_service (CState CStart []) [] [].

(** What the scheduler may pick next: a step of the coordinator, a new
    worker process attaching to the service ([make_client_manager]
    connects, which fails unless the service is up, and a process with
    target [peon] is started), or a step of worker [i]. *)
Inductive action : Type :=
| ACoord
| ASpawn
| APeon (i : nat).

#[global] Instance action_eq_dec : EqDecision action.
Proof. solve_decision. Defined.

Definition step (a : server_args) (act : action) (s : system) : system :=
  match act with
  | ACoord =>
      let '(c', sv', evs) := runserver_step a (coord s) (svc s) in
      System sv' c' (peons s) (trace s ++ (pair Coordinator <$> evs))
  | ASpawn =>
      if serving (svc s)
      then System (svc s) (coord s) (peons s ++ [WFetching]) (trace s)
      else s
  | APeon i =>
      match peons s !! i with
      | None => s
      | Some w =>
          let '(w', sv', evs) := peon_step w (svc s) in
          System sv' (coord s) (<[i := w']> (peons s))
                 (trace s ++ (pair (Worker i) <$> evs))
      end
  end.

Fixpoint exec (a : server_args) (sched : list action) (s : system) : system :=
  match sched with
  | [] => s
  | act :: sched' => exec a sched' (step a act s)
  end.

Definition run (a : server_args) (sched : list action) : system :=
  exec a sched init.

(** [runclient] and [run_workers]: [num_processes] worker processes are
    started on the proxies of one client manager.  (That [run_workers]
    then joins them has no effect on the queues.) *)
Definition run_workers (num_processes : nat) : list action :=
  replicate num_processes ASpawn.

(** ** Counting and specification vocabulary *)

Definition is_executing (w : wstate) : bool :=
  match w with WExecuting _ => true | _ => false end.
Definition is_reporting (w : wstate) : bool :=
  match w with WReporting _ => true | _ => false end.
Definition is_retiring (w : wstate) : bool :=
  match w with WRetiring => true | _ => false end.

(** Jobs and results that are somewhere between submission and
    collection: on the job queue, in a worker, or on the result queue. *)
Definition in_flight (sv : service) (ws : list wstate) : nat :=
  count is_job (job_q sv) + count is_executing ws
  + count is_reporting ws + length (result_q sv).

(** Poison pills on the job queue or in the hands of a worker. *)
Definition pills_held (ws : list wstate) : nat := count is_retiring ws.
Definition pills_queued (sv : service) : nat := count eq_POISONPILL (job_q sv).
Definition pills (sv : service) (ws : list wstate) : nat :=
  pills_queued sv + pills_held ws.

(** A call of the job function that is no failure for the protocol: it
    returns, or raises what [except NameError] catches. *)
Definition recognized (o : outcome) : bool :=
  match o with
  | Returned _ => true
  | Raised e => isinstance_NameError e
  end.

Definition no_unrecognized_failure (a : server_args) : bool :=
  forallb (λ c, recognized (read_file (obj a) c)) (chunks a).

(** Events of one actor, in order. *)
Definition events_of (who : actor → bool) (tr : list (actor * event))
  : list event :=
  omap (λ ae, if who ae.1 then Some ae.2 else None) tr.

Definition is_coordinator (ac : actor) : bool :=
  match ac with Coordinator => true | Worker _ => false end.
Definition is_worker (i : nat) (ac : actor) : bool :=
  match ac with Coordinator => false | Worker j => bool_decide (i = j) end.

Definition ctrace (s : system) : list event :=
  events_of is_coordinator (trace s).
Definition wtrace (i : nat) (s : system) : list event :=
  events_of (is_worker i) (trace s).

Definition is_pill_put (ev : event) : bool :=
  match ev with EvJobPut v => eq_POISONPILL v | _ => false end.
Definition is_job_put (ev : event) : bool :=
  match ev with EvJobPut v => is_job v | _ => false end.
Definition is_result_put (ev : event) : bool :=
  match ev with EvResultPut _ => true | _ => false end.
Definition is_call (ev : event) : bool :=
  match ev with EvCall _ => true | _ => false end.
Definition is_shutdown (ev : event) : bool :=
  match ev with EvShutdown => true | _ => false end.
Definition is_write (ev : event) : bool :=
  match ev with EvWrite _ _ => true | _ => false end.
Definition is_grace (ev : event) : bool :=
  match ev with EvSleep 5 => true | _ => false end.
Definition is_queue_op (ev : event) : bool :=
  match ev with
  | EvJobPut _ | EvJobGet _ | EvResultPut _ | EvResultGet _ => true
  | _ => false
  end.


(** Has [collect] returned? *)
Definition collected (p : cphase) : bool :=
  match p with
  | CTerminate | CGrace | CShutdown | CFinalize | CDone => true
  | _ => false
  end.

(** Has the coordinator enqueued the poison pill? *)
Definition pill_sent (p : cphase) : bool :=
  match p with
  | CGrace | CShutdown | CFinalize | CDone => true
  | _ => false
  end.

(** What [runserver] has done, at each program point, of its closing
    sequence. *)
Definition closing (a : server_args) (c : cstate) : list event :=
  let put := EvJobPut (VStr POISONPILL) in
  match pc c with
  | CGrace => [put]
  | CShutdown => [put; EvSleep 5]
  | CFinalize => [put; EvSleep 5; EvShutdown]
  | CDone =>
      match csv_writer (calc_avg (obj a) (results c) true) (outfile a) with
      | Some (path, rows) => [put; EvSleep 5; EvShutdown; EvWrite path rows]
      | None => []
      end
  | _ => []
  end.

Definition is_closing (ev : event) : bool :=
  is_pill_put ev || is_grace ev || is_shutdown ev || is_write ev.

(** The closing sequence is the tail of what the coordinator has done,
    and nothing before it belongs to it. *)
Definition closing_last (a : server_args) (s : system) : Prop :=
  ∃ pre, ctrace s = pre ++ closing a (coord s)
         ∧ forallb (λ ev, negb (is_closing ev)) pre = true.

(** A worker that returned or crashed does nothing any more. *)
Definition stopped (w : wstate) : bool :=
  match w with
  | WTerminated | WCrashed _ => true
  | _ => false
  end.

(** A run on an empty chunk sequence: the coordinator starts the
    service and returns, the workers find the job queue empty. *)
Definition idle_fetch (ev : event) : bool :=
  match ev with
  | EvJobGet None | EvSleep 1 => true
  | _ => false
  end.

Definition idle (a : server_args) (s : system) : Prop :=
  job_q (svc s) = [] ∧ result_q (svc s) = []
  ∧ Forall (λ w, w = WFetching) (peons s)
  ∧ (∀ i, forallb idle_fetch (wtrace i s) = true)
  ∧ match pc (coord s) with
    | CStart => serving (svc s) = false ∧ ctrace s = []
    | CNothing =>
        serving (svc s) = true ∧ ctrace s = [EvStart (host a) (port a)]
    | _ => False
    end.

(** How many job records the submission loop has put so far. *)
Definition job_puts_at (a : server_args) (s : system) : Prop :=
  count is_job_put (ctrace s)
  + match pc (coord s) with
    | CStart | CNothing => length (chunks a)
    | CSubmit rest => length rest
    | _ => 0
    end
  = length (chunks a).




(** How many results were ever put on the result queue. *)
Definition results_put (s : system) : nat :=
  count is_result_put (trace s).*2.

(** ** The protocol invariant *)

(** With [strict] no job is ever lost, without it some may be. *)
Definition within (strict : bool) (x n : nat) : Prop :=
  if strict then x = n else x ≤ n.

(** A job record built by the submission loop. *)
Definition submitted (a : server_args) (v : pyval) : Prop :=
  ∃ c, c ∈ chunks a ∧ v = mk_job a c.

Definition queue_ok (a : server_args) (sv : service) : Prop :=
  Forall (λ v, v = VStr POISONPILL ∨ submitted a v) (job_q sv).

Definition peon_ok (a : server_args) (w : wstate) : Prop :=
  match w with
  | WExecuting v => submitted a v
  | _ => True
  end.

Definition inv (strict : bool) (a : server_args) (s : system) : Prop :=
  queue_ok a (svc s) ∧ Forall (peon_ok a) (peons s) ∧
  let n := length (chunks a) in
  let fl := in_flight (svc s) (peons s) in
  let pl := pills (svc s) (peons s) in
  let got := length (results (coord s)) in
  match pc (coord s) with
  | CStart =>
      svc s = no_service ∧ peons s = [] ∧ results (coord s) = []
  | CNothing =>
      chunks a = [] ∧ serving (svc s) = true ∧ results (coord s) = []
      ∧ fl = 0 ∧ pl = 0
  | CSubmit rest =>
      serving (svc s) = true ∧ results (coord s) = [] ∧ chunks a ≠ []
      ∧ rest `suffix_of` chunks a
      ∧ within strict (fl + length rest) n ∧ pl = 0
  | CCollect =>
      serving (svc s) = true ∧ got < n ∧ within strict (fl + got) n ∧ pl = 0
  | CTerminate =>
      serving (svc s) = true ∧ got = n ∧ fl = 0 ∧ pl = 0
  | CGrace | CShutdown =>
      serving (svc s) = true ∧ got = n ∧ fl = 0 ∧ pl = 1
  | CFinalize | CDone =>
      serving (svc s) = false ∧ got = n ∧ fl = 0 ∧ pl ≤ 1
  | CCrashed _ => False
  end.

(** * Proofs *)

(** ** Counting in lists *)

Lemma count_app {A : Type} (p : A → bool) (l k : list A) :
  count p (l ++ k) = count p l + count p k.
Proof. induction l as [|x l IH]; simpl; [done | rewrite IH; lia]. Qed.

Lemma count_insert {A : Type} (p : A → bool) (l : list A) i x y :
  l !! i = Some x →
  count p (<[i := y]> l) + Nat.b2n (p x) = count p l + Nat.b2n (p y).
Proof.
  revert i. induction l as [|z l IH]; intros [|i] Hi; simplify_eq/=.
  - lia.
  - specialize (IH _ Hi). lia.
Qed.

Lemma count_pos_lookup {A : Type} (p : A → bool) (l : list A) :
  0 < count p l → ∃ i x, l !! i = Some x ∧ p x = true.
Proof.
  induction l as [|z l IH]; simpl; [lia|].
  destruct (p z) eqn:Hz; simpl; intros Hc.
  - by exists 0, z.
  - destruct (IH Hc) as (i & x & Hi & Hx). by exists (S i), x.
Qed.

(** ** One step of a worker *)


Lemma submitted_is_job a v : submitted a v → is_job v = true.
Proof. by intros (c & _ & ->). Qed.

Lemma submitted_not_pill a v : submitted a v → eq_POISONPILL v = false.
Proof. by intros (c & _ & ->). Qed.

Lemma queue_item_cases a v :
  v = VStr POISONPILL ∨ submitted a v →
  (eq_POISONPILL v = true ∧ is_job v = false)
  ∨ (eq_POISONPILL v = false ∧ is_job v = true ∧ submitted a v).
Proof.
  intros [->|Hs]; [by left|].
  right. eauto using submitted_is_job, submitted_not_pill.
Qed.

Lemma submitted_recognized a v :
  no_unrecognized_failure a = true → submitted a v →
  ∃ j, v = VJob j ∧ recognized (fn j (args j)) = true.
Proof.
  intros Hno (c & Hc & ->). eexists; split; [done|]. simpl.
  unfold no_unrecognized_failure in Hno.
  rewrite forallb_forall in Hno. apply Hno. by apply list_elem_of_In.
Qed.

Local Ltac effect_done Hwithin :=
  repeat split; auto; simpl; rewrite ?count_app, ?length_app; simpl;
  try done; try lia; try (apply Hwithin; lia).

Lemma peon_step_effect strict a sv ws i w w' sv' evs :
  (strict = true → no_unrecognized_failure a = true) →
  ws !! i = Some w →
  peon_step w sv = (w', sv', evs) →
  queue_ok a sv → peon_ok a w →
  serving sv' = serving sv ∧ queue_ok a sv' ∧ peon_ok a w'
  ∧ in_flight sv' (<[i := w']> ws) ≤ in_flight sv ws
  ∧ pills sv' (<[i := w']> ws) ≤ pills sv ws
  ∧ (serving sv = true →
     pills sv' (<[i := w']> ws) = pills sv ws
     ∧ within strict (in_flight sv' (<[i := w']> ws)) (in_flight sv ws)).
Proof.
  intros Hstrict Hi Hstep Hq Hw.
  pose proof (count_insert is_executing ws i w w' Hi) as He.
  pose proof (count_insert is_reporting ws i w w' Hi) as Hr.
  pose proof (count_insert is_retiring ws i w w' Hi) as Ht.
  unfold in_flight, pills, pills_queued, pills_held, queue_ok in *.
  assert (∀ x y, x = y → within strict x y) as Hwithin.
  { intros x y ->. destruct strict; simpl; lia. }
  destruct sv as [up jq rq]; simpl in *.
  destruct w as [|v|r| | |e]; simpl in *.
  - (* fetching *)
    unfold job_get_nowait in Hstep; simpl in Hstep.
    destruct up; [|simplify_eq/=; effect_done Hwithin].
    destruct jq as [|v jq]; [simplify_eq/=; effect_done Hwithin|].
    apply Forall_cons in Hq as [Hv Hq].
    destruct (queue_item_cases _ _ Hv) as [[Hp Hj]|(Hp & Hj & Hs)];
      rewrite Hp in Hstep; simplify_eq/=; rewrite ?Hp, ?Hj in *;
      effect_done Hwithin.
  - (* executing *)
    destruct Hw as (c & Hc & ->); simpl in Hstep.
    destruct (read_file (obj a) c) as [m|e] eqn:Hout.
    { simplify_eq/=. effect_done Hwithin. }
    destruct (isinstance_NameError e) eqn:HN.
    { simplify_eq/=. effect_done Hwithin. }
    assert (strict = false) as ->.
    { destruct strict; [|done]. specialize (Hstrict eq_refl).
      destruct (submitted_recognized a (mk_job a c) Hstrict)
        as (j & Hj & Hrec); [by exists c|].
      unfold mk_job in Hj. simplify_eq/=. rewrite Hout in Hrec.
      simpl in Hrec. congruence. }
    destruct (isinstance_Empty e); simplify_eq/=; effect_done Hwithin.
  - (* reporting *)
    unfold result_put in Hstep; simpl in Hstep.
    destruct up; simplify_eq/=; effect_done Hwithin.
  - (* retiring *)
    unfold job_put in Hstep; simpl in Hstep.
    destruct up; simplify_eq/=; effect_done Hwithin.
    apply Forall_app; split; [done|]. by constructor; [left|].
  - simplify_eq/=. effect_done Hwithin.
  - simplify_eq/=. effect_done Hwithin.
Qed.

(** ** The report writer never fails *)

Lemma getitem_keys (d : dict) k : k ∈ keys d → is_Some (getitem d k).
Proof.
  unfold keys. induction d as [|[k' v] d IH]; simpl.
  - by intros ?%elem_of_nil.
  - intros Hk. destruct (decide (k = k')); [by eexists|].
    apply IH. apply elem_of_cons in Hk as [?|?]; [done|done].
Qed.

Lemma csv_writer_rows (d : dict) (o : option string) :
  ∃ rows,
    csv_writer d o = Some (default "outfile.csv" o, header :: rows)
    ∧ Forall2 (λ k row, ∃ v, getitem d k = Some v
                             ∧ row = [str k; format_2f v]) (keys d) rows.
Proof.
  assert (is_Some (mapM (data_row d) (keys d))) as [rows Hrows].
  { apply mapM_is_Some, Forall_forall. intros k Hk.
    destruct (getitem_keys d k Hk) as [v Hv].
    unfold data_row; simpl. rewrite Hv. by eexists. }
  exists rows. split.
  - unfold csv_writer. rewrite Hrows. by destruct o.
  - apply mapM_Some in Hrows. eapply Forall2_impl; [done|].
    intros k row Hrow. unfold data_row in Hrow.
    destruct (getitem d k) as [v|]; simplify_eq/=. by exists v.
Qed.

(** ** Every step keeps the invariant *)

Lemma within_refl strict n : within strict n n.
Proof. destruct strict; simpl; lia. Qed.

Lemma within_le strict x n : within strict x n → x ≤ n.
Proof. destruct strict; simpl; lia. Qed.

Lemma within_eq strict x y n : x = y → within strict y n → within strict x n.
Proof. by intros ->. Qed.

Lemma within_trans strict x y n k :
  within strict x y → within strict (y + k) n → within strict (x + k) n.
Proof. destruct strict; simpl; lia. Qed.

Lemma inv_init a : inv true a init.
Proof. repeat split; simpl; auto; constructor. Qed.

Lemma inv_weaken strict a s : inv strict a s → inv false a s.
Proof.
  intros (Hq & Hw & Hpc). split; [done|]. split; [done|].
  destruct (pc (coord s)); simpl in *; try done; destruct_and?;
    repeat split; auto; hnf; eapply within_le; eassumption.
Qed.

Lemma inv_step_coord strict a s :
  inv strict a s → inv strict a (step a ACoord s).
Proof.
  intros (Hq & Hw & Hpc). unfold step.
  destruct s as [[up jq rq] [p rs] ws tr]; simpl in *.
  unfold runserver_step; simpl.
  unfold inv, queue_ok, in_flight, pills, pills_queued, pills_held in *;
    simpl in *.
  destruct p as [| |rest| | | | | | |e]; simpl in *.
  - (* start *)
    destruct Hpc as (? & ? & ?); simplify_eq/=.
    destruct (chunks a) as [|c cs] eqn:Hcs; simpl;
      repeat split; auto; try done; try lia.
    apply within_refl.
  - (* nothing to do *) done.
  - (* submit *)
    destruct Hpc as (-> & -> & Hne & Hsuf & Hfl & Hpl).
    destruct rest as [|c rest]; simpl in *.
    + repeat split; auto; try lia.
      destruct (chunks a); simpl; [done | lia].
    + unfold job_put; simpl. repeat split; auto.
      * apply Forall_app; split; [done|]. constructor; [|done].
        right. exists c. split; [|done].
        destruct Hsuf as [k ->]. apply elem_of_app; right. by left.
      * by eapply suffix_cons_l.
      * rewrite count_app; simpl. eapply within_eq; [|done]. lia.
      * rewrite count_app; simpl. lia.
  - (* collect *)
    destruct Hpc as (-> & Hlt & Hfl & Hpl). unfold result_get_nowait; simpl.
    destruct rq as [|r rq]; simpl in *; [by repeat split|].
    pose proof (within_le _ _ _ Hfl).
    case_decide as Hlen; simpl; rewrite ?length_app in *; simpl in *;
      repeat split; auto; try lia.
    eapply within_eq; [|done]. lia.
  - (* terminate *)
    destruct Hpc as (-> & ? & ? & ?). unfold job_put; simpl.
    repeat split; auto; rewrite ?count_app; simpl; try lia.
    apply Forall_app; split; [done|]. by constructor; [left|].
  - (* grace *) by destruct Hpc as (-> & ? & ? & ?).
  - (* shutdown *)
    destruct Hpc as (-> & ? & ? & ?). repeat split; auto; lia.
  - (* finalize *)
    destruct (csv_writer_rows (calc_avg (obj a) rs true) (outfile a))
      as (rows & -> & _). simpl. done.
  - done.
  - done.
Qed.

Lemma inv_step strict a act s :
  (strict = true → no_unrecognized_failure a = true) →
  inv strict a s → inv strict a (step a act s).
Proof.
  intros Hstrict Hinv. destruct act as [| |i].
  - by apply inv_step_coord.
  - (* a new worker attaches *)
    unfold step. destruct (serving (svc s)) eqn:Hup; [|done].
    destruct Hinv as (Hq & Hw & Hpc).
    split; [done|]. split; [apply Forall_app; split; [done|by constructor]|].
    simpl. unfold in_flight, pills, pills_held in *.
    rewrite !count_app; simpl. rewrite !Nat.add_0_r.
    destruct (pc (coord s)); try done.
    destruct Hpc as (Hsv & _). rewrite Hsv in Hup. done.
  - (* worker [i] moves *)
    unfold step. destruct (peons s !! i) as [w|] eqn:Hi; [|done].
    destruct Hinv as (Hq & Hw & Hpc).
    destruct (peon_step w (svc s)) as [[w' sv'] evs] eqn:Hstep.
    assert (peon_ok a w) as Hwi.
    { eapply Forall_lookup_1; eauto. }
    destruct (peon_step_effect strict a _ _ _ _ _ _ _ Hstrict Hi Hstep Hq Hwi)
      as (Hup & Hq' & Hw' & Hfl & Hpl & Hserving).
    split; [done|]. split; [by apply Forall_insert|]. simpl.
    cbv zeta in *.
    destruct (pc (coord s)); try done; destruct_and?;
      try match goal with
        | Hsv : serving _ = true |- _ => destruct (Hserving Hsv)
        end;
      repeat split; auto; try lia; try congruence;
      try (eapply within_trans; eauto).
    all: match goal with Hnil : peons _ = [] |- _ => by rewrite Hnil in Hi end.
Qed.

Lemma exec_app a sched1 sched2 s :
  exec a (sched1 ++ sched2) s = exec a sched2 (exec a sched1 s).
Proof. revert s. induction sched1 as [|act l IH]; intros s; simpl; auto. Qed.

Lemma inv_exec strict a sched s :
  (strict = true → no_unrecognized_failure a = true) →
  inv strict a s → inv strict a (exec a sched s).
Proof.
  intros Hstrict. revert s.
  induction sched as [|act l IH]; intros s Hinv; simpl; [done|].
  by apply IH, inv_step.
Qed.

Lemma inv_run a sched : inv false a (run a sched).
Proof. apply inv_exec; [done|]. apply inv_weaken with true, inv_init. Qed.


(** ** Induction over the runs of the program *)

Lemma run_snoc a sched act :
  run a (sched ++ [act]) = step a act (run a sched).
Proof. unfold run. by rewrite exec_app. Qed.

Lemma run_ind a (P : system → Prop) :
  P init →
  (∀ s act, inv false a s → P s → P (step a act s)) →
  ∀ sched, P (run a sched).
Proof.
  intros Hinit Hstep sched.
  induction sched as [|act sched IH] using rev_ind; [done|].
  rewrite run_snoc. apply Hstep; [apply inv_run | done].
Qed.

(** ** Who did what *)

Lemma events_of_app who (tr1 tr2 : list (actor * event)) :
  events_of who (tr1 ++ tr2) = events_of who tr1 ++ events_of who tr2.
Proof. apply omap_app. Qed.

Lemma events_of_same who ac (evs : list event) :
  who ac = true → events_of who (pair ac <$> evs) = evs.
Proof.
  intros Hwho. unfold events_of.
  induction evs as [|ev evs IH]; csimpl; [done|].
  rewrite Hwho; csimpl. by rewrite IH.
Qed.

Lemma events_of_other who ac (evs : list event) :
  who ac = false → events_of who (pair ac <$> evs) = [].
Proof.
  intros Hwho. unfold events_of.
  induction evs as [|ev evs IH]; csimpl; [done|].
  by rewrite Hwho.
Qed.

Lemma ctrace_step_coord a s :
  ctrace (step a ACoord s)
  = ctrace s ++ (runserver_step a (coord s) (svc s)).2.
Proof.
  unfold ctrace, step.
  destruct (runserver_step a (coord s) (svc s)) as [[c' sv'] evs]; simpl.
  by rewrite events_of_app, events_of_same.
Qed.

Lemma ctrace_step_spawn a s : ctrace (step a ASpawn s) = ctrace s.
Proof. unfold ctrace, step. by destruct (serving (svc s)). Qed.

Lemma ctrace_step_peon a i s : ctrace (step a (APeon i) s) = ctrace s.
Proof.
  unfold ctrace, step. destruct (peons s !! i) as [w|]; [|done].
  destruct (peon_step w (svc s)) as [[w' sv'] evs]; simpl.
  by rewrite events_of_app, events_of_other, app_nil_r.
Qed.

Lemma wtrace_step_coord a i s : wtrace i (step a ACoord s) = wtrace i s.
Proof.
  unfold wtrace, step.
  destruct (runserver_step a (coord s) (svc s)) as [[c' sv'] evs]; simpl.
  by rewrite events_of_app, events_of_other, app_nil_r.
Qed.

Lemma wtrace_step_spawn a i s : wtrace i (step a ASpawn s) = wtrace i s.
Proof. unfold wtrace, step. by destruct (serving (svc s)). Qed.

Lemma wtrace_step_peon a i s w :
  peons s !! i = Some w →
  wtrace i (step a (APeon i) s) = wtrace i s ++ (peon_step w (svc s)).2.
Proof.
  intros Hi. unfold wtrace, step. rewrite Hi.
  destruct (peon_step w (svc s)) as [[w' sv'] evs]; simpl.
  rewrite events_of_app, events_of_same; [done|].
  simpl. by apply bool_decide_eq_true.
Qed.

Lemma wtrace_step_peon_ne a i j s :
  i ≠ j → wtrace i (step a (APeon j) s) = wtrace i s.
Proof.
  intros Hij. unfold wtrace, step. destruct (peons s !! j) as [w|]; [|done].
  destruct (peon_step w (svc s)) as [[w' sv'] evs]; simpl.
  rewrite events_of_app, events_of_other, app_nil_r; [done|].
  simpl. by apply bool_decide_eq_false.
Qed.

Lemma peons_step_coord a s : peons (step a ACoord s) = peons s.
Proof.
  unfold step.
  by destruct (runserver_step a (coord s) (svc s)) as [[c' sv'] evs].
Qed.

Lemma coord_step_spawn a s : coord (step a ASpawn s) = coord s.
Proof. unfold step. by destruct (serving (svc s)). Qed.

Lemma coord_step_peon a i s : coord (step a (APeon i) s) = coord s.
Proof.
  unfold step. destruct (peons s !! i) as [w|]; [|done].
  by destruct (peon_step w (svc s)) as [[w' sv'] evs].
Qed.

(** ** The coordinator's own trace *)

Lemma closing_last_run a sched : closing_last a (run a sched).
Proof.
  apply run_ind.
  { by exists []. }
  intros s act Hinv (pre & Htr & Hpre). unfold closing_last.
  destruct act as [| |i];
    [|rewrite ctrace_step_spawn, coord_step_spawn; eauto
     |rewrite ctrace_step_peon, coord_step_peon; eauto].
  rewrite ctrace_step_coord, Htr. unfold step, runserver_step, closing in *.
  destruct s as [[up jq rq] [p rs] ws tr], Hinv as (_ & _ & Hpc);
    simpl in *.
  assert (∀ evs post,
    forallb (λ ev, negb (is_closing ev)) evs = true →
    ∃ pre', (pre ++ post) ++ evs = pre' ++ post ++ evs
            ∧ forallb (λ ev, negb (is_closing ev)) pre' = true) as Hlate.
  { intros evs post _. exists pre. split; [by rewrite <- app_assoc | done]. }
  assert (∀ evs,
    forallb (λ ev, negb (is_closing ev)) evs = true →
    ∃ pre', (pre ++ []) ++ evs = pre' ++ []
            ∧ forallb (λ ev, negb (is_closing ev)) pre' = true) as Hearly.
  { intros evs Hevs. exists (pre ++ evs).
    by rewrite !app_nil_r, forallb_app, Hpre. }
  destruct p as [| |[|c rest]| | | | | | |e]; simpl in *.
  - destruct (chunks a); simpl; by apply Hearly.
  - by apply (Hearly []).
  - by apply Hearly.
  - destruct Hpc as (-> & _). simpl. by apply Hearly.
  - destruct Hpc as (-> & _). unfold result_get_nowait; simpl.
    destruct rq as [|r rq]; simpl; [|case_decide; simpl]; by apply Hearly.
  - destruct Hpc as (-> & _). simpl. exists pre. split; [by rewrite app_nil_r | done].
  - exists pre. split; [by rewrite <- app_assoc | done].
  - exists pre. split; [by rewrite <- app_assoc | done].
  - destruct (csv_writer_rows (calc_avg (obj a) rs true) (outfile a))
      as (rows & Hcsv & _). repeat (rewrite Hcsv; simpl).
    exists pre. split; [by rewrite <- app_assoc | done].
  - exists pre. split; [by rewrite app_nil_r | done].
  - done.
Qed.

(** ** Results put and results collected *)

Lemma snd_pair_fmap (ac : actor) (evs : list event) :
  (pair ac <$> evs).*2 = evs.
Proof. induction evs as [|ev evs IH]; csimpl; [done|]. by rewrite IH. Qed.

Lemma trace_step_coord a s :
  trace (step a ACoord s)
  = trace s ++ (pair Coordinator <$> (runserver_step a (coord s) (svc s)).2).
Proof.
  unfold step.
  by destruct (runserver_step a (coord s) (svc s)) as [[c' sv'] evs].
Qed.

Lemma trace_step_peon a i s w :
  peons s !! i = Some w →
  trace (step a (APeon i) s)
  = trace s ++ (pair (Worker i) <$> (peon_step w (svc s)).2).
Proof.
  intros Hi. unfold step. rewrite Hi.
  by destruct (peon_step w (svc s)) as [[w' sv'] evs].
Qed.





(** ** Progress: a run without unrecognized failures can always finish *)







Lemma step_peon a i s w w' sv' evs :
  peons s !! i = Some w → peon_step w (svc s) = (w', sv', evs) →
  step a (APeon i) s
  = System sv' (coord s) (<[i := w']> (peons s))
           (trace s ++ (pair (Worker i) <$> evs)).
Proof. intros Hi Hstep. unfold step. by rewrite Hi, Hstep. Qed.







(** ** What the other processes do leaves a worker alone *)

Lemma other_step_keeps a act i s w :
  act ≠ APeon i → peons s !! i = Some w →
  peons (step a act s) !! i = Some w
  ∧ wtrace i (step a act s) = wtrace i s.
Proof.
  intros Hact Hi. destruct act as [| |j].
  - by rewrite peons_step_coord, wtrace_step_coord.
  - rewrite wtrace_step_spawn. split; [|done].
    unfold step. destruct (serving (svc s)); [|done].
    by apply lookup_app_l_Some.
  - assert (i ≠ j) as Hij by congruence.
    rewrite wtrace_step_peon_ne by done. split; [|done].
    unfold step. destruct (peons s !! j) as [w'|]; [|done].
    destruct (peon_step w' (svc s)) as [[w'' sv'] evs]; simpl.
    by rewrite list_lookup_insert_ne.
Qed.

Lemma own_step a i s w :
  peons s !! i = Some w →
  peons (step a (APeon i) s) !! i = Some (peon_step w (svc s)).1.1
  ∧ svc (step a (APeon i) s) = (peon_step w (svc s)).1.2
  ∧ wtrace i (step a (APeon i) s) = wtrace i s ++ (peon_step w (svc s)).2.
Proof.
  intros Hi. rewrite (wtrace_step_peon _ _ _ _ Hi).
  destruct (peon_step w (svc s)) as [[w' sv'] evs] eqn:Hstep.
  rewrite (step_peon _ _ _ _ _ _ _ Hi Hstep). simpl.
  split; [|done]. apply list_lookup_insert_eq. by eapply lookup_lt_Some.
Qed.

Lemma stopped_forever a i w more s :
  stopped w = true → peons s !! i = Some w →
  peons (exec a more s) !! i = Some w
  ∧ wtrace i (exec a more s) = wtrace i s.
Proof.
  intros Hw. revert s. induction more as [|act more IH]; intros s Hi; [done|].
  simpl. destruct (decide (act = APeon i)) as [->|Hact].
  - destruct (own_step a i s w Hi) as (Hi' & _ & Htr).
    destruct w; try done; simpl in *;
      destruct (IH _ Hi') as [? ?]; split; [done | | done |];
      by rewrite app_nil_r in Htr; congruence.
  - destruct (other_step_keeps a act i s w Hact Hi) as [Hi' Htr].
    destruct (IH _ Hi') as [? ?]. split; [done | congruence].
Qed.



(** ** Formatting a score *)

Lemma is_digit_digit_char d : (d < 10)%N → is_digit (digit_char d) = true.
Proof.
  intros Hd. unfold is_digit, digit_char.
  rewrite N_ascii_embedding by lia.
  apply andb_true_intro. split; apply N.leb_le; lia.
Qed.

Lemma digits_fuel_digits fuel n :
  forallb is_digit (digits_fuel fuel n) = true.
Proof.
  revert n. induction fuel as [|fuel IH]; intros n; simpl.
  - rewrite is_digit_digit_char; [done|]. apply N.mod_lt. lia.
  - destruct (n <? 10)%N eqn:Hn; simpl.
    + rewrite is_digit_digit_char; [done|]. by apply N.ltb_lt.
    + rewrite forallb_app, IH. simpl.
      rewrite is_digit_digit_char; [done|]. apply N.mod_lt. lia.
Qed.

Lemma digits_fuel_nonempty fuel n : digits_fuel fuel n ≠ [].
Proof.
  destruct fuel as [|fuel]; simpl; [done|].
  destruct (n <? 10)%N; [done|]. by destruct (digits_fuel fuel (n / 10)).
Qed.

Lemma is_integer_part_digits neg n :
  is_integer_part ((if neg : bool then ["-"%char] else []) ++ digits n)
  = true.
Proof.
  unfold digits. pose proof (digits_fuel_digits (N.to_nat (N.size n)) n) as Hd.
  pose proof (digits_fuel_nonempty (N.to_nat (N.size n)) n) as Hne.
  destruct (digits_fuel _ n) as [|c cs] eqn:Hds; [done|].
  destruct neg; simpl; unfold is_integer_part.
  - rewrite bool_decide_eq_true_2 by done. done.
  - simpl in Hd. apply andb_prop in Hd as [Hc Hcs].
    rewrite bool_decide_eq_false_2; [by simpl; rewrite Hc, Hcs|].
    intros ->. done.
Qed.

Lemma two_decimals_finite x :
  is_finite x = true → two_decimals (format_2f x) = true.
Proof.
  destruct x as [neg m e| |]; try done. intros _.
  unfold two_decimals, format_2f.
  rewrite String.list_ascii_of_string_of_list_ascii. simpl.
  set (h := hundredths m e). rewrite app_assoc, reverse_app. simpl.
  rewrite reverse_involutive, is_integer_part_digits.
  rewrite !is_digit_digit_char; [done | |]; apply N.mod_lt; lia.
Qed.

(** ** The poison pill *)

Lemma count_forallb {A : Type} (p q : A → bool) (l : list A) :
  (∀ x, q x = true → p x = false) →
  forallb q l = true → count p l = 0.
Proof.
  intros Hpq. induction l as [|x l IH]; simpl; [done|].
  intros [Hx Hl]%andb_prop. by rewrite (IH Hl), (Hpq x Hx).
Qed.

Lemma count_forallb_negb {A : Type} (p q : A → bool) (l : list A) :
  (∀ x, p x = true → q x = true) →
  forallb (λ x, negb (q x)) l = true → count p l = 0.
Proof.
  intros Hpq. apply count_forallb. intros x Hq.
  destruct (p x) eqn:Hp; [|done]. by rewrite (Hpq x Hp) in Hq.
Qed.

Lemma pill_put_once a sched :
  let s := run a sched in
  count is_pill_put (ctrace s) = Nat.b2n (pill_sent (pc (coord s))).
Proof.
  cbv zeta. destruct (closing_last_run a sched) as (pre & Htr & Hpre).
  rewrite Htr, count_app, (count_forallb_negb is_pill_put is_closing pre);
    [|by unfold is_closing; intros ev -> |done].
  unfold closing.
  destruct (pc (coord (run a sched))); try done.
  by destruct (csv_writer_rows
                 (calc_avg (obj a) (results (coord (run a sched))) true)
                 (outfile a)) as (rows & -> & _).
Qed.

Lemma queue_only_pills a (q : list pyval) :
  Forall (λ v, v = VStr POISONPILL ∨ submitted a v) q →
  count is_job q = 0 →
  q = replicate (count eq_POISONPILL q) (VStr POISONPILL).
Proof.
  induction 1 as [|v q Hv _ IH]; simpl; [done|]. intros Hc.
  destruct Hv as [->|Hs].
  - simpl in *. by rewrite <- IH.
  - rewrite (submitted_is_job _ _ Hs) in Hc. simpl in Hc. lia.
Qed.

(** Once the coordinator has sent the pill and as long as the service is
    up, the pill is the only thing on the job queue, unless one worker
    has it in its hands. *)
Lemma pill_on_queue_or_held a sched :
  let s := run a sched in
  pill_sent (pc (coord s)) = true → serving (svc s) = true →
  (job_q (svc s) = [VStr POISONPILL] ∧ pills_held (peons s) = 0)
  ∨ (job_q (svc s) = [] ∧ pills_held (peons s) = 1).
Proof.
  simpl. intros Hsent Hup.
  destruct (inv_run a sched) as (Hq & _ & Hinv).
  cbv zeta in Hinv. unfold in_flight, pills, pills_queued in Hinv.
  assert (count is_job (job_q (svc (run a sched))) = 0
          ∧ count eq_POISONPILL (job_q (svc (run a sched)))
            + pills_held (peons (run a sched)) = 1) as [Hjobs Hpills].
  { destruct (pc (coord (run a sched))); try done;
      destruct Hinv as (? & ? & ? & ?); split; try lia; congruence. }
  pose proof (queue_only_pills a _ Hq Hjobs) as Hrep.
  destruct (count eq_POISONPILL (job_q (svc (run a sched))))
    as [|[|n]] eqn:Hc; simpl in *.
  - right. split; [done | lia].
  - left. split; [done | lia].
  - lia.
Qed.


(** ** Workers never put a job on the job queue *)

Lemma peon_step_no_job_put (w : wstate) sv :
  count is_job_put (peon_step w sv).2 = 0.
Proof.
  destruct w as [|[j|str]|r| | |e]; simpl;
    unfold job_get_nowait, job_put, result_put;
    by repeat case_match.
Qed.

Lemma no_job_put_run a sched i :
  count is_job_put (wtrace i (run a sched)) = 0.
Proof.
  apply (run_ind a (λ s, count is_job_put (wtrace i s) = 0)); [done|].
  intros s act _ IH. destruct (decide (act = APeon i)) as [->|Hact].
  - destruct (peons s !! i) as [w|] eqn:Hi;
      [|by unfold step; rewrite Hi].
    rewrite (wtrace_step_peon _ _ _ _ Hi), count_app, IH.
    by rewrite peon_step_no_job_put.
  - destruct act as [| |j].
    + by rewrite wtrace_step_coord.
    + by rewrite wtrace_step_spawn.
    + rewrite wtrace_step_peon_ne; [done | congruence].
Qed.

(** ** Runs on an empty chunk sequence *)

Lemma idle_run a sched : chunks a = [] → idle a (run a sched).
Proof.
  intros Hnil. apply (run_ind a (idle a)).
  { by repeat split. }
  intros s act Hinv (Hjq & Hrq & Hws & Hwt & Hpc). unfold idle.
  destruct act as [| |j].
  - rewrite peons_step_coord, ctrace_step_coord.
    setoid_rewrite wtrace_step_coord.
    destruct s as [[up jq rq] [p rs] ws tr]; simpl in *; subst.
    unfold step, runserver_step; simpl.
    destruct p; try done; destruct Hpc as [-> Hct]; simpl.
    + rewrite Hnil, Hct. by repeat split.
    + rewrite Hct. by repeat split.
  - rewrite ctrace_step_spawn, coord_step_spawn.
    setoid_rewrite wtrace_step_spawn.
    unfold step. destruct (serving (svc s)) eqn:Hup; simpl;
      rewrite ?Hup; repeat split; try done.
    apply Forall_app. split; [done|]. by constructor.
  - rewrite ctrace_step_peon, coord_step_peon.
    destruct (peons s !! j) as [w|] eqn:Hj;
      [|by unfold step; rewrite Hj].
    pose proof (Forall_lookup_1 _ _ _ _ Hws Hj) as ->.
    assert (serving (svc s) = true) as Hup.
    { destruct Hinv as (_ & _ & Hinv).
      destruct (pc (coord s)); try done; [|by destruct Hpc].
      destruct Hinv as (_ & Hws' & _). by rewrite Hws' in Hj. }
    assert (peon_step WFetching (svc s)
            = (WFetching, svc s, [EvJobGet None; EvSleep 1])) as Hstep.
    { simpl. unfold job_get_nowait. by rewrite Hjq, Hup. }
    assert (∀ i, forallb idle_fetch (wtrace i (step a (APeon j) s)) = true)
      as Hwt'.
    { intros i. destruct (decide (i = j)) as [->|Hij].
      - by rewrite (wtrace_step_peon _ _ _ _ Hj), Hstep, forallb_app, Hwt.
      - by rewrite wtrace_step_peon_ne. }
    pose proof (step_peon a j s _ _ _ _ Hj Hstep) as Hs.
    split; [by rewrite Hs|]. split; [by rewrite Hs|].
    split; [rewrite Hs; by apply Forall_insert|]. split; [done|].
    rewrite Hs. simpl. by destruct (pc (coord s)).
Qed.

(** ** The submission loop puts one job per chunk *)

Lemma job_puts_run a sched :
  job_puts_at a (run a sched).
Proof.
  apply (run_ind a (job_puts_at a)).
  { unfold job_puts_at; simpl. lia. }
  intros s act Hinv IH. unfold job_puts_at in *.
  destruct act as [| |i];
    [|by rewrite ctrace_step_spawn, coord_step_spawn
     |by rewrite ctrace_step_peon, coord_step_peon].
  rewrite ctrace_step_coord, count_app.
  destruct s as [[up jq rq] [p rs] ws tr], Hinv as (_ & _ & Hinv).
  unfold step, runserver_step, job_put, result_get_nowait; simpl in *.
  destruct p as [| |[|c rest]| | | | | | |e]; simpl in *;
    try done; try lia.
  - destruct (chunks a); simpl; lia.
  - destruct Hinv as (-> & _). simpl. lia.
  - destruct Hinv as (-> & _). destruct rq; simpl; [lia|].
    case_decide; simpl; lia.
  - destruct Hinv as (-> & _). simpl. lia.
  - destruct (csv_writer _ _) as [[??]|]; simpl; lia.
Qed.

(** ** The collection loop on a result queue that holds enough *)


(** ** A job in the hands of a worker *)

Lemma count_lookup_pos {A : Type} (p : A → bool) (l : list A) i x :
  l !! i = Some x → p x = true → 0 < count p l.
Proof.
  revert i. induction l as [|z l IH]; intros [|i] Hi Hx; simplify_eq/=.
  - rewrite Hx. simpl. lia.
  - specialize (IH _ Hi Hx). lia.
Qed.

Lemma executing_serving a sched i v :
  peons (run a sched) !! i = Some (WExecuting v) →
  serving (svc (run a sched)) = true.
Proof.
  intros Hi. destruct (inv_run a sched) as (_ & _ & Hinv).
  pose proof (count_lookup_pos is_executing _ _ _ Hi eq_refl) as Hpos.
  cbv zeta in Hinv. unfold in_flight in Hinv.
  destruct (pc (coord (run a sched))); try done;
    destruct Hinv as (Hup & Hinv); try done; destruct_and?; try lia.
  match goal with Hnil : peons _ = [] |- _ => by rewrite Hnil in Hi end.
Qed.

(** ** The closing sequence, step by step *)





(** * The claims *)



(** C3: a worker that holds a dequeued job whose call raises [NameError]
    puts the result that pairs the job with the error marker on the
    result queue and is back at fetching; it has not crashed, and the
    job queue is as it was. *)
Theorem name_error_is_reported a sched i j e :
  let s := run a sched in
  peons s !! i = Some (WExecuting (VJob j)) →
  fn j (args j) = Raised e → isinstance_NameError e = true →
  let s' := exec a [APeon i; APeon i] s in
  peons s' !! i = Some WFetching
  ∧ result_q (svc s') = result_q (svc s) ++ [Result j (OStr ERROR)]
  ∧ job_q (svc s') = job_q (svc s)
  ∧ wtrace i s'
    = wtrace i s ++ [EvCall j; EvResultPut (Result j (OStr ERROR))].
Proof.
  intros s Hi Hraise Hname s'.
  pose proof (executing_serving a sched i _ Hi) as Hup. fold s in Hup.
  destruct (own_step a i s _ Hi) as (Hi1 & Hsv1 & Htr1).
  assert (peon_step (WExecuting (VJob j)) (svc s)
          = (WReporting (Result j (OStr ERROR)), svc s, [EvCall j]))
    as Hstep1.
  { simpl. by rewrite Hraise, Hname. }
  rewrite Hstep1 in Hi1, Hsv1, Htr1. cbn [fst snd] in Hi1, Hsv1, Htr1.
  destruct (own_step a i _ _ Hi1) as (Hi2 & Hsv2 & Htr2).
  rewrite Hsv1 in Hi2, Hsv2, Htr2.
  assert (peon_step (WReporting (Result j (OStr ERROR))) (svc s)
          = (WFetching,
             Service true (job_q (svc s))
                     (result_q (svc s) ++ [Result j (OStr ERROR)]),
             [EvResultPut (Result j (OStr ERROR))])) as Hstep2.
  { simpl. unfold result_put. by rewrite Hup. }
  rewrite Hstep2 in Hi2, Hsv2, Htr2. cbn [fst snd] in Hi2, Hsv2, Htr2.
  unfold s'. cbn [exec]. rewrite Hi2, Hsv2, Htr2, Htr1, <- app_assoc.
  done.
Qed.

(** C4, as the program has it: a worker that holds a dequeued job whose
    call raises anything that [except NameError] does not catch puts no
    result on the result queue and leaves the job queue as it was; when
    the exception is not [queue.Empty] either, the worker has crashed
    and does nothing any more.  No worker ever puts a job on the job
    queue, and the coordinator puts no more jobs than there are
    chunks. *)
Theorem unrecognized_failure_loses_job a sched i j e :
  let s := run a sched in
  peons s !! i = Some (WExecuting (VJob j)) →
  fn j (args j) = Raised e → isinstance_NameError e = false →
  let s' := step a (APeon i) s in
  result_q (svc s') = result_q (svc s)
  ∧ job_q (svc s') = job_q (svc s)
  ∧ results_put s' = results_put s
  ∧ (isinstance_Empty e = false →
     peons s' !! i = Some (WCrashed e)
     ∧ ∀ more, peons (exec a more s') !! i = Some (WCrashed e)
               ∧ wtrace i (exec a more s') = wtrace i s ++ [EvCall j])
  ∧ (∀ more k, count is_job_put (wtrace k (exec a more s')) = 0)
  ∧ (∀ more, count is_job_put (ctrace (exec a more s'))
             ≤ length (chunks a)).
Proof.
  intros s Hi Hraise Hname s'.
  destruct (own_step a i s _ Hi) as (Hi1 & Hsv1 & Htr1).
  fold s' in Hi1, Hsv1, Htr1.
  assert (∀ more, exec a more s' = run a (sched ++ APeon i :: more))
    as Hrun.
  { intros more. unfold s', s, run. by rewrite exec_app. }
  split; [|split; [|split; [|split; [|split]]]].
  - rewrite Hsv1. simpl. rewrite Hraise, Hname.
    by destruct (isinstance_Empty e).
  - rewrite Hsv1. simpl. rewrite Hraise, Hname.
    by destruct (isinstance_Empty e).
  - unfold results_put, s'. rewrite (trace_step_peon _ _ _ _ Hi).
    rewrite fmap_app, count_app, snd_pair_fmap. simpl.
    rewrite Hraise, Hname. destruct (isinstance_Empty e); simpl; lia.
  - intros Hempty.
    assert (peon_step (WExecuting (VJob j)) (svc s)
            = (WCrashed e, svc s, [EvCall j])) as Hstep.
    { simpl. by rewrite Hraise, Hname, Hempty. }
    rewrite Hstep in Hi1, Htr1. cbn [fst snd] in Hi1, Htr1.
    split; [done|]. intros more.
    destruct (stopped_forever a i (WCrashed e) more s' eq_refl Hi1)
      as [? ?].
    split; [done | congruence].
  - intros more k. rewrite Hrun. apply no_job_put_run.
  - intros more. rewrite Hrun.
    pose proof (job_puts_run a (sched ++ APeon i :: more)) as Hputs.
    unfold job_puts_at in Hputs. lia.
Qed.


(** C6: on an empty chunk sequence nothing is ever put on either queue,
    the coordinator performs no queue operation at all, every fetch of
    every worker finds the job queue empty and no worker calls a job
    function; the coordinator returns in its first step and does nothing
    afterwards. *)
Theorem empty_submission_is_no_op a sched :
  chunks a = [] →
  let s := run a sched in
  job_q (svc s) = [] ∧ result_q (svc s) = []
  ∧ count is_queue_op (ctrace s) = 0
  ∧ (∀ i, forallb idle_fetch (wtrace i s) = true)
  ∧ (∀ i, count is_call (wtrace i s) = 0)
  ∧ pc (coord (step a ACoord init)) = CNothing
  ∧ (pc (coord s) = CNothing → step a ACoord s = s).
Proof.
  intros Hnil s.
  destruct (idle_run a sched Hnil) as (Hjq & Hrq & _ & Hwt & Hpc).
  fold s in Hjq, Hrq, Hwt, Hpc.
  split; [done|]. split; [done|]. split; [|split; [done|split; [|split]]].
  - destruct (pc (coord s)); try done; destruct Hpc as [_ ->]; done.
  - intros i. apply (count_forallb is_call idle_fetch); [by intros []|done].
  - unfold step, runserver_step; simpl. by rewrite Hnil.
  - intros Hc. destruct s as [sv [p rs] ws tr]; simpl in *; subst.
    unfold step, runserver_step; simpl. by rewrite app_nil_r.
Qed.



(** C9, as the program has it: without an output file name the report
    goes to [outfile.csv]; its first row is the header; one data row
    follows for each key of the mapping, made of the key and its score;
    and every finite score is written with exactly two decimal
    digits. *)
Theorem report_has_one_row_per_key (d : dict) :
  ∃ rows,
    csv_writer d None
    = Some ("outfile.csv", ["base position"; "phred score"] :: rows)
    ∧ length rows = length (keys d)
    ∧ Forall2 (λ k row, ∃ v, getitem d k = Some v
                             ∧ row = [str k; format_2f v]
                             ∧ (is_finite v = true →
                                two_decimals (format_2f v) = true))
              (keys d) rows.
Proof.
  destruct (csv_writer_rows d None) as (rows & Hcsv & Hrows).
  exists rows. split; [done|]. split.
  - symmetry. by eapply Forall2_length.
  - eapply Forall2_impl; [done|]. intros k row (v & Hv & ->).
    exists v. eauto using two_decimals_finite.
Qed.


(** * More of the protocol

    What the programs of the coordinator and of the workers do to the
    jobs and to the results on their way from the chunk sequence to the
    collected list. *)

(** The ['result'] entry a worker reports for a call that returned or
    raised what [except NameError] catches. *)
Definition outval_of (o : outcome) : outval :=
  match o with
  | Returned m => OMetric m
  | Raised _ => OStr ERROR
  end.

(** The result record a worker builds for a job. *)
Definition answer (j : job) : result :=
  Result j (outval_of (fn j (args j))).

(** The result record to expect for a chunk. *)
Definition answer_of (a : server_args) (c : chunk) : result :=
  answer (Job (read_file (obj a)) c).

Definition only_job (v : pyval) : option pyval :=
  if is_job v then Some v else None.

(** The job records put on the job queue, taken from it and lying on
    it, each in order. *)
Definition jobs_put (evs : list event) : list pyval :=
  omap (λ ev, match ev with EvJobPut v => only_job v | _ => None end) evs.
Definition jobs_got (evs : list event) : list pyval :=
  omap (λ ev, match ev with
              | EvJobGet (Some v) => only_job v
              | _ => None
              end) evs.
Definition jobs_on (q : list pyval) : list pyval := omap only_job q.

(** The chunks the submission loop has still to go through. *)
Definition pending (a : server_args) (p : cphase) : list chunk :=
  match p with
  | CStart | CNothing => chunks a
  | CSubmit rest => rest
  | _ => []
  end.

(** The result records put on the result queue, in order. *)
Definition results_put_in_order (evs : list event) : list result :=
  omap (λ ev, match ev with EvResultPut r => Some r | _ => None end) evs.

(** The jobs whose function was called, in order. *)
Definition calls (evs : list event) : list job :=
  omap (λ ev, match ev with EvCall j => Some j | _ => None end) evs.

(** The value a worker has taken and not executed yet. *)
Definition holding (w : wstate) : list pyval :=
  match w with
  | WExecuting v => [v]
  | _ => []
  end.

(** All that happened in a run, whoever did it. *)
Definition events (s : system) : list event := (trace s).*2.

(** The collected results, followed by those waiting on the result
    queue, are the results put, in the order they were put. *)
Definition results_in_put_order (s : system) : Prop :=
  results (coord s) ++ result_q (svc s) = results_put_in_order (events s).

(** The job records put on the job queue are those of the chunks gone
    through, in the order of the chunks, and they leave the queue in
    that order. *)
Definition dispatched_in_order (a : server_args) (s : system) : Prop :=
  ∃ done, chunks a = done ++ pending a (pc (coord s))
          ∧ jobs_put (events s) = mk_job a <$> done
          ∧ jobs_got (events s) ++ jobs_on (job_q (svc s))
            = jobs_put (events s).

(** A worker calls the jobs it has taken, in the order it took them,
    each once; the last one taken may still be waiting for its call. *)
Definition calls_what_it_took (i : nat) (s : system) : Prop :=
  match peons s !! i with
  | Some w =>
      (VJob <$> calls (wtrace i s)) ++ jobs_on (holding w)
      = jobs_got (wtrace i s)
  | None => wtrace i s = []
  end.

(** The result record of a submitted job whose call is no failure. *)
Definition is_answer (a : server_args) (r : result) : Prop :=
  ∃ c, c ∈ chunks a ∧ recognized (read_file (obj a) c) = true
       ∧ r = answer_of a c.

Definition results_are_answers (a : server_args) (s : system) : Prop :=
  Forall (is_answer a) (results (coord s))
  ∧ Forall (is_answer a) (result_q (svc s))
  ∧ Forall (λ w, ∀ r, w = WReporting r → is_answer a r) (peons s).

(** A worker that has taken the poison pill. *)
Definition retired (w : wstate) : bool :=
  match w with
  | WRetiring | WTerminated => true
  | _ => false
  end.

(** A call that ended in an exception [except NameError] does not
    catch: its job is lost. *)
Definition is_lost_call (ev : event) : bool :=
  match ev with
  | EvCall j => negb (recognized (fn j (args j)))
  | _ => false
  end.

Definition lost_calls (s : system) : nat := count is_lost_call (events s).

(** Every chunk is accounted for exactly once: still to be submitted,
    in flight, collected or lost. *)
Definition accounted (a : server_args) (s : system) : Prop :=
  in_flight (svc s) (peons s) + length (pending a (pc (coord s)))
  + length (results (coord s)) + lost_calls s
  = length (chunks a).

(** The result records that are in the making: one for a job in a
    worker's hands, one for each job still on the queue. *)
Definition reported (w : wstate) : list result :=
  match w with
  | WExecuting (VJob j) => [answer j]
  | WReporting r => [r]
  | _ => []
  end.

Definition in_hands (ws : list wstate) : list result := ws ≫= reported.

Definition to_come (q : list pyval) : list result :=
  omap (λ v, match v with VJob j => Some (answer j) | VStr _ => None end) q.

(** The answers to the chunks gone through are, in some order, the
    results collected, those on the result queue and those in the
    making. *)
Definition all_answers (a : server_args) (s : system) : Prop :=
  ∃ done, chunks a = done ++ pending a (pc (coord s))
          ∧ answer_of a <$> done
            ≡ₚ results (coord s) ++ result_q (svc s)
               ++ in_hands (peons s) ++ to_come (job_q (svc s)).

(** Reading a decimal numeral. *)
Definition digit_value (c : ascii) : N := (N_of_ascii c - 48)%N.

Definition number_of (cs : list ascii) : N :=
  foldl (λ acc c, (10 * acc + digit_value c)%N) 0%N cs.

(** ** How a step extends the trace *)

Lemma events_step_coord a s :
  events (step a ACoord s)
  = events s ++ (runserver_step a (coord s) (svc s)).2.
Proof.
  unfold events. by rewrite trace_step_coord, fmap_app, snd_pair_fmap.
Qed.

Lemma events_step_spawn a s : events (step a ASpawn s) = events s.
Proof. unfold events, step. by destruct (serving (svc s)). Qed.

Lemma events_step_peon a i s w :
  peons s !! i = Some w →
  events (step a (APeon i) s) = events s ++ (peon_step w (svc s)).2.
Proof.
  intros Hi. unfold events.
  by rewrite (trace_step_peon _ _ _ _ Hi), fmap_app, snd_pair_fmap.
Qed.

Lemma step_peon_none a i s : peons s !! i = None → step a (APeon i) s = s.
Proof. intros Hi. unfold step. by rewrite Hi. Qed.

Lemma svc_step_spawn a s : svc (step a ASpawn s) = svc s.
Proof. unfold step. by destruct (serving (svc s)). Qed.

(** ** The result queue is first in, first out *)

Lemma results_in_put_order_run a sched :
  results_in_put_order (run a sched).
Proof.
  apply (run_ind a results_in_put_order); [done|].
  intros s act Hinv IH. unfold results_in_put_order in *.
  destruct act as [| |i].
  - rewrite events_step_coord. unfold results_put_in_order in *.
    rewrite omap_app, <- IH. clear IH.
    destruct s as [[up jq rq] [p rs] ws tr], Hinv as (_ & _ & Hpc).
    unfold step, runserver_step, job_put, result_get_nowait;
      simpl in *.
    destruct p as [| |[|c rest]| | | | | | |e]; simpl in *;
      try done; unfold no_service in *; destruct_and?; simplify_eq/=;
      rewrite ?app_nil_r; try done.
    + by destruct (chunks a).
    + destruct rq as [|r rq]; simpl; [by rewrite !app_nil_r|].
      case_decide; simpl; by rewrite !app_nil_r, <- app_assoc.
    + destruct (csv_writer _ _) as [[??]|]; simpl; by rewrite app_nil_r.
  - by rewrite events_step_spawn, coord_step_spawn, svc_step_spawn.
  - destruct (peons s !! i) as [w|] eqn:Hi;
      [|by rewrite step_peon_none].
    rewrite (events_step_peon _ _ _ _ Hi), coord_step_peon.
    destruct (own_step a i s w Hi) as (_ & -> & _).
    unfold results_put_in_order in *. rewrite omap_app, <- IH. clear IH.
    destruct (svc s) as [up jq rq].
    destruct w as [|[j|str]|r| | |e]; simpl;
      unfold job_get_nowait, job_put, result_put; simpl;
      repeat case_match; simplify_eq/=;
      by rewrite ?app_nil_r, ?app_assoc.
Qed.

(** ** The job queue is first in, first out *)

Lemma dispatched_in_order_run a sched :
  dispatched_in_order a (run a sched).
Proof.
  apply (run_ind a (dispatched_in_order a)).
  { exists []. by repeat split. }
  intros s act Hinv (done & Hdone & Hput & Hgot).
  unfold dispatched_in_order.
  destruct act as [| |i].
  - rewrite events_step_coord. unfold jobs_put, jobs_got in *.
    rewrite !omap_app.
    destruct s as [[up jq rq] [p rs] ws tr], Hinv as (_ & _ & Hpc).
    unfold step, runserver_step, job_put, result_get_nowait;
      simpl in *.
    destruct p as [| |[|c rest]| | | | | | |e]; simpl in *;
      try done; unfold no_service in *; destruct_and?; simplify_eq/=.
    + exists done. rewrite app_nil_r in Hgot.
      destruct (chunks a) eqn:Hc; simpl; rewrite !app_nil_r, ?Hc;
        by repeat split.
    + exists done. rewrite ?app_nil_r in *. by repeat split.
    + exists done. rewrite ?app_nil_r in *. by repeat split.
    + exists (done ++ [c]). rewrite <- app_assoc. split; [done|].
      rewrite fmap_app, Hput, app_nil_r. split; [done|].
      unfold jobs_on in *. rewrite omap_app. simpl.
      by rewrite app_assoc, Hgot, Hput.
    + exists done. destruct rq as [|r rq]; simpl;
        [|case_decide; simpl]; rewrite ?app_nil_r in *; by repeat split.
    + exists done. unfold jobs_on in *. rewrite omap_app. simpl.
      rewrite ?app_nil_r in *. by repeat split.
    + exists done. rewrite ?app_nil_r in *. by repeat split.
    + exists done. rewrite ?app_nil_r in *. by repeat split.
    + exists done. destruct (csv_writer _ _) as [[??]|]; simpl;
        rewrite ?app_nil_r in *; by repeat split.
    + exists done. rewrite ?app_nil_r in *. by repeat split.
  - rewrite events_step_spawn, coord_step_spawn, svc_step_spawn. eauto.
  - destruct (peons s !! i) as [w|] eqn:Hi;
      [|rewrite step_peon_none by done; eauto].
    rewrite (events_step_peon _ _ _ _ Hi), coord_step_peon.
    destruct (own_step a i s w Hi) as (_ & -> & _).
    exists done. split; [done|]. unfold jobs_put, jobs_got, jobs_on in *.
    rewrite !omap_app, <- Hput, <- Hgot. clear Hput Hgot.
    destruct (svc s) as [up jq rq].
    destruct w as [|[j|str]|r| | |e]; simpl;
      unfold job_get_nowait, job_put, result_put; simpl;
      repeat case_match; simplify_eq/=;
      rewrite ?omap_app; simpl; rewrite ?app_nil_r; try done.
    all: unfold only_job in *; repeat case_match; simplify_eq/=;
      by rewrite <- ?app_assoc.
Qed.

(** ** A worker calls what it took *)

Lemma new_peon_lookup a act i s :
  peons s !! i = None →
  peons (step a act s) !! i = None
  ∨ (peons (step a act s) !! i = Some WFetching ∧ act = ASpawn).
Proof.
  intros Hi. destruct act as [| |j].
  - left. by rewrite peons_step_coord.
  - unfold step. destruct (serving (svc s)); [|by left]. simpl.
    destruct (decide (i = length (peons s))) as [->|Hne].
    { right. by rewrite list_lookup_middle. }
    left. apply lookup_ge_None in Hi. apply lookup_ge_None.
    rewrite length_app; simpl. lia.
  - left. unfold step. destruct (peons s !! j) as [w'|] eqn:Hj; [|done].
    destruct (peon_step w' (svc s)) as [[w'' sv'] evs]; simpl.
    rewrite list_lookup_insert_ne; [done|]. intros ->. congruence.
Qed.

Lemma calls_what_it_took_run a sched i :
  calls_what_it_took i (run a sched).
Proof.
  apply (run_ind a (calls_what_it_took i)); [done|].
  intros s act _ IH. unfold calls_what_it_took in *.
  destruct (peons s !! i) as [w|] eqn:Hi.
  - destruct (decide (act = APeon i)) as [->|Hact].
    + destruct (own_step a i s w Hi) as (-> & _ & ->).
      unfold calls, jobs_got, jobs_on in *. rewrite !omap_app, <- IH.
      clear IH. destruct (svc s) as [up jq rq].
      destruct w as [|[j|str]|r| | |e]; simpl;
        unfold job_get_nowait, job_put, result_put; simpl;
        repeat case_match; simplify_eq/=;
        rewrite ?fmap_app, ?app_nil_r; try done.
      all: unfold only_job in *; simpl in *; repeat case_match;
        simplify_eq/=; rewrite ?app_nil_r; try done.
      all: match goal with
           | Hp : eq_POISONPILL ?p = true, Hj : is_job ?p = true |- _ =>
               by destruct p
           end.
    + by destruct (other_step_keeps a act i s w Hact Hi) as [-> ->].
  - destruct (new_peon_lookup a act i s Hi) as [->|[-> ->]].
    + destruct act as [| |j].
      * by rewrite wtrace_step_coord.
      * by rewrite wtrace_step_spawn.
      * destruct (decide (i = j)) as [->|Hij];
          [by rewrite step_peon_none | by rewrite wtrace_step_peon_ne].
    + by rewrite wtrace_step_spawn, IH.
Qed.

(** ** Every result is the answer to a submitted job *)

Lemma results_are_answers_run a sched :
  results_are_answers a (run a sched).
Proof.
  apply (run_ind a (results_are_answers a)).
  { by repeat split. }
  intros s act Hinv (Hrs & Hrq & Hws). unfold results_are_answers.
  destruct act as [| |i].
  - rewrite peons_step_coord. split; [|split; [|done]];
      destruct s as [[up jq rq] [p rs] ws tr]; simpl in *;
      unfold step, runserver_step, job_put, result_get_nowait; simpl;
      repeat case_match; simplify_eq/=; try done;
      try (apply Forall_cons in Hrq as [? ?]); try done;
      try (apply Forall_app; split; [done|by constructor]).
  - rewrite coord_step_spawn, svc_step_spawn. split; [done|].
    split; [done|]. unfold step. destruct (serving (svc s)); [|done].
    simpl. apply Forall_app. split; [done|]. by constructor.
  - destruct (peons s !! i) as [w|] eqn:Hi;
      [|by rewrite step_peon_none].
    rewrite coord_step_peon. split; [done|].
    destruct (peon_step w (svc s)) as [[w' sv'] evs] eqn:Hstep.
    rewrite (step_peon _ _ _ _ _ _ _ Hi Hstep). simpl.
    pose proof (Forall_lookup_1 _ _ _ _ Hws Hi) as Hw.
    destruct Hinv as (_ & Hok & _).
    pose proof (Forall_lookup_1 _ _ _ _ Hok Hi) as Hsub.
    assert (Forall (is_answer a) (result_q sv')
            ∧ ∀ r, w' = WReporting r → is_answer a r) as [? ?];
      [|split; [done|by apply Forall_insert]].
    destruct (svc s) as [up jq rq]. simpl in *.
    destruct w as [|[j|str]|r| | |e]; simpl in *;
      unfold job_get_nowait, job_put, result_put in *; simpl in *;
      repeat case_match; simplify_eq/=; split; try done.
    + destruct Hsub as (c & Hc & [= ->]). intros r [= <-].
      exists c. unfold answer_of, answer; simpl in *.
      match goal with Hm : read_file _ _ = _ |- _ => rewrite Hm end.
      by repeat split.
    + destruct Hsub as (c & Hc & [= ->]). intros r [= <-].
      exists c. unfold answer_of, answer; simpl in *.
      match goal with Hm : read_file _ _ = _ |- _ => rewrite Hm end.
      by repeat split.
    + apply Forall_app. split; [done|]. constructor; [|done]. by apply Hw.
Qed.

(** ** No worker retires before the pill is sent *)

Lemma count_zero_lookup {A : Type} (p : A → bool) (l : list A) i x :
  count p l = 0 → l !! i = Some x → p x = false.
Proof.
  intros Hc Hi. destruct (p x) eqn:Hx; [|done].
  pose proof (count_lookup_pos p l i x Hi Hx). lia.
Qed.

Lemma pill_sent_step a act s :
  inv false a s →
  pill_sent (pc (coord s)) = true →
  pill_sent (pc (coord (step a act s))) = true.
Proof.
  intros (_ & _ & Hinv) Hsent. destruct act as [| |i];
    [|by rewrite coord_step_spawn|by rewrite coord_step_peon].
  destruct s as [sv [p rs] ws tr]; simpl in *.
  unfold step, runserver_step; simpl.
  destruct p; try done.
  by destruct (csv_writer_rows (calc_avg (obj a) rs true) (outfile a))
    as (rows & -> & _).
Qed.

Lemma no_early_retirement_run a sched :
  let s := run a sched in
  pill_sent (pc (coord s)) = false → count retired (peons s) = 0.
Proof.
  apply (run_ind a (λ s, pill_sent (pc (coord s)) = false →
                         count retired (peons s) = 0)); [done|].
  intros s act Hinv IH Hsent.
  assert (pill_sent (pc (coord s)) = false) as Hsent0.
  { destruct (pill_sent (pc (coord s))) eqn:Hs; [|done].
    by rewrite (pill_sent_step a act s Hinv Hs) in Hsent. }
  specialize (IH Hsent0). destruct act as [| |i].
  - by rewrite peons_step_coord.
  - unfold step. destruct (serving (svc s)); [|done]. simpl.
    rewrite count_app, IH. done.
  - destruct (peons s !! i) as [w|] eqn:Hi;
      [|by rewrite step_peon_none].
    destruct (peon_step w (svc s)) as [[w' sv'] evs] eqn:Hstep.
    rewrite (step_peon _ _ _ _ _ _ _ Hi Hstep). simpl.
    pose proof (count_insert retired _ i w w' Hi) as Hc.
    pose proof (count_zero_lookup retired _ i w IH Hi) as Hw.
    rewrite Hw, IH in Hc. simpl in Hc.
    assert (retired w' = false) as Hw'; [|rewrite Hw' in Hc; simpl in Hc; lia].
    assert (pills_queued (svc s) = 0) as Hq.
    { destruct Hinv as (_ & _ & Hinv). cbv zeta in Hinv.
      unfold pills in Hinv. unfold no_service in *.
      destruct (pc (coord s)); try done; destruct_and?; try lia.
      by match goal with Hsv : svc s = _ |- _ => rewrite Hsv end. }
    destruct (svc s) as [up jq rq]. unfold pills_queued in Hq.
    destruct w as [|[j|str]|r| | |e]; simpl in *;
      unfold job_get_nowait, job_put, result_put in *; simpl in *;
      repeat case_match; simplify_eq/=; try done.
    match goal with Hp : eq_POISONPILL _ = true |- _ =>
      rewrite Hp in Hq end.
    simpl in Hq. lia.
Qed.

Lemma in_flight_serving strict a s :
  inv strict a s → 0 < in_flight (svc s) (peons s) →
  serving (svc s) = true.
Proof.
  intros (_ & _ & Hinv) Hpos. cbv zeta in Hinv.
  destruct (pc (coord s)); try done; unfold no_service in *;
    destruct_and?; try done; try lia.
  match goal with Hsv : svc s = _, Hws : peons s = _ |- _ =>
    rewrite Hsv, Hws in Hpos end.
  unfold in_flight in Hpos. simpl in Hpos. lia.
Qed.

(** ** What a lost job costs *)

Lemma runserver_step_no_lost_call a c sv :
  count is_lost_call (runserver_step a c sv).2 = 0.
Proof.
  unfold runserver_step, job_put, result_get_nowait.
  destruct c as [p rs]; simpl. by repeat case_match.
Qed.

Lemma peon_step_accounted a sv ws i w w' sv' evs :
  ws !! i = Some w →
  peon_step w sv = (w', sv', evs) →
  queue_ok a sv → peon_ok a w →
  (is_reporting w = true → serving sv = true) →
  in_flight sv' (<[i := w']> ws) + count is_lost_call evs
  = in_flight sv ws.
Proof.
  intros Hi Hstep Hq Hok Hup.
  pose proof (count_insert is_executing ws i w w' Hi) as He.
  pose proof (count_insert is_reporting ws i w w' Hi) as Hr.
  unfold in_flight, queue_ok in *.
  destruct sv as [up jq rq]; simpl in *.
  destruct w as [|[j|str]|r| | |e]; simpl in *.
  - unfold job_get_nowait in Hstep; simpl in Hstep.
    destruct up; [|simplify_eq/=; lia].
    destruct jq as [|v jq]; [simplify_eq/=; lia|].
    apply Forall_cons in Hq as [Hv _].
    destruct (queue_item_cases _ _ Hv) as [[Hp Hj]|(Hp & Hj & _)];
      rewrite Hp in Hstep; simplify_eq/=; rewrite Hj; simpl; lia.
  - assert (∃ lost, count is_lost_call evs = lost
                    ∧ Nat.b2n (is_reporting w') + lost = 1
                    ∧ is_executing w' = false ∧ sv' = Service up jq rq)
      as (lost & -> & Hone & Hex & ->).
    { destruct (fn j (args j)) as [m|e] eqn:Hout.
      - simplify_eq/=. rewrite Hout. simpl. by exists 0.
      - destruct (isinstance_NameError e) eqn:HN.
        + simplify_eq/=. rewrite Hout. simpl. rewrite HN. by exists 0.
        + destruct (isinstance_Empty e); simplify_eq/=; rewrite Hout;
            simpl; rewrite HN; by exists 1. }
    rewrite Hex in He. simpl in *. lia.
  - by destruct Hok as (c & _ & ?).
  - unfold result_put in Hstep; simpl in Hstep.
    rewrite Hup in Hstep by done.
    simplify_eq/=; rewrite ?length_app; simpl; lia.
  - unfold job_put in Hstep; simpl in Hstep.
    destruct up; simplify_eq/=; rewrite ?count_app; simpl; lia.
  - simplify_eq/=. lia.
  - simplify_eq/=. lia.
Qed.

Lemma accounted_run a sched : accounted a (run a sched).
Proof.
  apply (run_ind a (accounted a)).
  { unfold accounted, in_flight, lost_calls; simpl. lia. }
  intros s act Hinv IH. unfold accounted, lost_calls in *.
  destruct act as [| |i].
  - rewrite events_step_coord, count_app, runserver_step_no_lost_call.
    rewrite peons_step_coord.
    destruct s as [[up jq rq] [p rs] ws tr], Hinv as (_ & _ & Hpc).
    unfold step, runserver_step, job_put, result_get_nowait;
      unfold in_flight in *; simpl in *.
    destruct p as [| |[|c rest]| | | | | | |e]; simpl in *;
      try done; try lia; unfold no_service in *; destruct_and?;
      simplify_eq/=; rewrite ?count_app, ?length_app; simpl; try lia.
    + destruct (chunks a) eqn:Hc; simpl in *; rewrite ?Hc; simpl; lia.
    + destruct rq as [|r rq]; simpl in *; [lia|].
      case_decide; simpl; rewrite length_app; simpl; lia.
    + destruct (csv_writer _ _) as [[??]|]; simpl; lia.
  - rewrite events_step_spawn, coord_step_spawn, svc_step_spawn.
    unfold step. destruct (serving (svc s)); [|done]. simpl.
    unfold in_flight in *. rewrite !count_app. simpl. lia.
  - destruct (peons s !! i) as [w|] eqn:Hi;
      [|by rewrite step_peon_none].
    rewrite (events_step_peon _ _ _ _ Hi), coord_step_peon, count_app.
    destruct (peon_step w (svc s)) as [[w' sv'] evs] eqn:Hstep.
    rewrite (step_peon _ _ _ _ _ _ _ Hi Hstep). simpl.
    assert (is_reporting w = true → serving (svc s) = true) as Hup.
    { intros Hw. apply (in_flight_serving false a); [done|].
      pose proof (count_lookup_pos is_reporting _ _ _ Hi Hw).
      unfold in_flight. lia. }
    destruct Hinv as (Hq & Hok & _).
    pose proof (Forall_lookup_1 _ _ _ _ Hok Hi) as Hsub.
    pose proof (peon_step_accounted a _ _ _ _ _ _ _ Hi Hstep Hq Hsub Hup).
    lia.
Qed.

Lemma trace_grows a more s : ∃ tr, trace (exec a more s) = trace s ++ tr.
Proof.
  revert s. induction more as [|act more IH]; intros s; simpl.
  { exists []. by rewrite app_nil_r. }
  destruct (IH (step a act s)) as [tr ->].
  assert (∃ tr', trace (step a act s) = trace s ++ tr') as [tr' ->].
  { destruct act as [| |i].
    - rewrite trace_step_coord. eauto.
    - unfold step. destruct (serving (svc s)); exists []; simpl;
        by rewrite app_nil_r.
    - destruct (peons s !! i) as [w|] eqn:Hi.
      + rewrite (trace_step_peon _ _ _ _ Hi). eauto.
      + rewrite step_peon_none by done. exists []. by rewrite app_nil_r. }
  exists (tr' ++ tr). by rewrite app_assoc.
Qed.

(** ** Nothing is lost, nothing is made up *)

Lemma in_hands_insert ws i w w' :
  ws !! i = Some w →
  ∃ l1 l2, in_hands ws = l1 ++ reported w ++ l2
           ∧ in_hands (<[i := w']> ws) = l1 ++ reported w' ++ l2.
Proof.
  intros Hi. exists (in_hands (take i ws)), (in_hands (drop (S i) ws)).
  unfold in_hands. split.
  - rewrite <- (take_drop_middle ws i w Hi) at 1.
    by rewrite bind_app, bind_cons.
  - rewrite insert_take_drop by (by eapply lookup_lt_Some).
    by rewrite bind_app, bind_cons.
Qed.

Lemma in_hands_nil ws :
  count is_executing ws = 0 → count is_reporting ws = 0 → in_hands ws = [].
Proof.
  unfold in_hands. induction ws as [|w ws IH]; [done|].
  rewrite bind_cons. simpl. intros He Hr.
  destruct w as [|v|r| | |e]; simpl in *; try lia; by apply IH.
Qed.

Lemma to_come_nil (q : list pyval) : count is_job q = 0 → to_come q = [].
Proof.
  unfold to_come. induction q as [|v q IH]; [done|]. simpl.
  destruct v; simpl; [lia | by apply IH].
Qed.

Lemma all_answers_run a sched :
  no_unrecognized_failure a = true → all_answers a (run a sched).
Proof.
  intros Hno. apply (run_ind a (all_answers a)).
  { exists []. by split. }
  intros s act Hinv (done & Hdone & Hperm). unfold all_answers.
  destruct act as [| |i].
  - rewrite peons_step_coord.
    destruct s as [[up jq rq] [p rs] ws tr], Hinv as (_ & _ & Hpc).
    unfold step, runserver_step, job_put, result_get_nowait;
      simpl in *.
    destruct p as [| |[|c rest]| | | | | | |e]; simpl in *;
      try done; unfold no_service in *; destruct_and?; simplify_eq/=;
      try by exists done.
    + exists done. by destruct (chunks a) eqn:Hc; simpl; rewrite ?Hc.
    + exists (done ++ [c]). rewrite <- app_assoc. split; [done|].
      unfold to_come in *. rewrite fmap_app, omap_app, Hperm. simpl.
      fold (answer_of a c). solve_Permutation.
    + exists done. destruct rq as [|r rq]; simpl; [done|].
      split; [by case_decide|].
      case_decide; simpl; rewrite Hperm; solve_Permutation.
    + exists done. split; [done|]. unfold to_come in *.
      rewrite omap_app. simpl. by rewrite app_nil_r.
    + exists done. by destruct (csv_writer _ _) as [[??]|].
  - rewrite coord_step_spawn, svc_step_spawn. exists done.
    split; [done|]. unfold step. destruct (serving (svc s)); [|done].
    simpl. unfold in_hands in *. by rewrite bind_app, app_nil_r.
  - destruct (peons s !! i) as [w|] eqn:Hi;
      [|rewrite step_peon_none by done; by exists done].
    rewrite coord_step_peon. exists done. split; [done|].
    destruct (peon_step w (svc s)) as [[w' sv'] evs] eqn:Hstep.
    rewrite (step_peon _ _ _ _ _ _ _ Hi Hstep). simpl.
    destruct (in_hands_insert _ i w w' Hi) as (l1 & l2 & Hin & ->).
    rewrite Hperm, Hin. clear Hperm Hin.
    assert (is_reporting w = true → serving (svc s) = true) as Hup.
    { intros Hw. apply (in_flight_serving false a); [done|].
      pose proof (count_lookup_pos is_reporting _ _ _ Hi Hw).
      unfold in_flight. lia. }
    destruct Hinv as (_ & Hok & _).
    pose proof (Forall_lookup_1 _ _ _ _ Hok Hi) as Hsub.
    destruct (svc s) as [up jq rq]. simpl in *.
    destruct w as [|[j|str]|r| | |e]; simpl in *.
    + unfold job_get_nowait in Hstep; simpl in Hstep.
      destruct up; [|by simplify_eq/=].
      destruct jq as [|[j|str] jq]; simpl in *;
        repeat case_match; simplify_eq/=; try done.
      solve_Permutation.
    + destruct (submitted_recognized a _ Hno Hsub) as (j' & [= <-] & Hrec).
      destruct (fn j (args j)) as [m|e] eqn:Hout; simpl in *.
      * simplify_eq/=. unfold answer. by rewrite Hout.
      * rewrite Hrec in Hstep. simplify_eq/=. unfold answer.
        by rewrite Hout.
    + by destruct Hsub as (c & _ & ?).
    + unfold result_put in Hstep; simpl in Hstep.
      rewrite Hup in Hstep by done. simplify_eq/=. solve_Permutation.
    + unfold job_put in Hstep; simpl in Hstep. unfold to_come.
      destruct up; simplify_eq/=; [|done].
      rewrite omap_app. simpl. by rewrite app_nil_r.
    + by simplify_eq/=.
    + by simplify_eq/=.
Qed.

(** ** Retiring *)

Lemma retire_now a i s :
  serving (svc s) = true → job_q (svc s) = [VStr POISONPILL] →
  peons s !! i = Some WFetching →
  let s2 := exec a [APeon i; APeon i] s in
  peons s2 !! i = Some WTerminated
  ∧ svc s2 = svc s ∧ coord s2 = coord s.
Proof.
  intros Hup Hq Hi s2. unfold s2. cbn [exec].
  destruct (own_step a i s _ Hi) as (Hi1 & Hsv1 & _).
  assert (peon_step WFetching (svc s)
          = (WRetiring, Service true [] (result_q (svc s)),
             [EvJobGet (Some (VStr POISONPILL))])) as Hstep1.
  { simpl. unfold job_get_nowait. by rewrite Hup, Hq. }
  rewrite Hstep1 in Hi1, Hsv1. cbn [fst snd] in Hi1, Hsv1.
  set (s1 := step a (APeon i) s) in *.
  destruct (own_step a i s1 _ Hi1) as (Hi2 & Hsv2 & _).
  rewrite Hsv1 in Hi2, Hsv2.
  assert (peon_step WRetiring (Service true [] (result_q (svc s)))
          = (WTerminated, svc s, [EvJobPut (VStr POISONPILL)])) as Hstep2.
  { destruct (svc s) as [up jq rq]. simpl in *. by subst. }
  rewrite Hstep2 in Hi2, Hsv2. cbn [fst snd] in Hi2, Hsv2.
  split; [done|]. split; [done|].
  unfold s1. by rewrite !coord_step_peon.
Qed.

(** X9: once the poison pill is sent and while the service is up, a
    worker that is fetching can retire whatever the state of the others:
    at most three steps of workers (the worker holding the pill puts it
    back, this worker takes it and puts it back) bring it to its
    [return], with the pill back on the job queue and without a step of
    the coordinator. *)
Theorem fetching_worker_can_retire a sched i :
  let s := run a sched in
  pill_sent (pc (coord s)) = true → serving (svc s) = true →
  peons s !! i = Some WFetching →
  ∃ acts, length acts ≤ 3 ∧ Forall (λ act, act ≠ ACoord) acts
          ∧ peons (exec a acts s) !! i = Some WTerminated
          ∧ job_q (svc (exec a acts s)) = [VStr POISONPILL]
          ∧ coord (exec a acts s) = coord s.
Proof.
  intros s Hsent Hup Hi.
  destruct (pill_on_queue_or_held a sched Hsent Hup) as [[Hq _]|[Hq Hheld]];
    fold s in Hq.
  - exists [APeon i; APeon i].
    destruct (retire_now a i s Hup Hq Hi) as (? & Hsv & ?).
    split; [simpl; lia|]. split; [by repeat constructor|].
    split; [done|]. split; [by rewrite Hsv|done].
  - fold s in Hheld. unfold pills_held in Hheld.
    destruct (count_pos_lookup is_retiring (peons s)) as (j & w & Hj & Hw);
      [lia|].
    destruct w; try done.
    assert (APeon j ≠ APeon i) as Hne by (intros [= ->]; congruence).
    destruct (other_step_keeps a (APeon j) i s _ Hne Hi) as [Hi1 _].
    destruct (own_step a j s _ Hj) as (_ & Hsv1 & _).
    assert (peon_step WRetiring (svc s)
            = (WTerminated,
               Service true [VStr POISONPILL] (result_q (svc s)),
               [EvJobPut (VStr POISONPILL)])) as Hstep.
    { simpl. unfold job_put. by rewrite Hup, Hq. }
    rewrite Hstep in Hsv1. cbn [fst snd] in Hsv1.
    destruct (retire_now a i (step a (APeon j) s)) as (? & Hsv & Hc);
      [by rewrite Hsv1 | by rewrite Hsv1 | done |].
    exists [APeon j; APeon i; APeon i].
    split; [simpl; lia|]. split; [by repeat constructor|].
    cbn [exec] in *. split; [done|].
    split; [by rewrite Hsv, Hsv1|]. by rewrite Hc, coord_step_peon.
Qed.

(** ** After the shutdown *)


(** ** Workers attaching *)



(** ** The rows of the report *)



(** ** The numeral written for a score *)

Lemma digit_value_digit_char d :
  (d < 10)%N → digit_value (digit_char d) = d.
Proof.
  intros Hd. unfold digit_value, digit_char.
  rewrite N_ascii_embedding by lia. lia.
Qed.

Lemma number_of_snoc cs c :
  number_of (cs ++ [c]) = (10 * number_of cs + digit_value c)%N.
Proof. unfold number_of. by rewrite foldl_app. Qed.

Lemma number_of_digits_fuel fuel n :
  (n < 10 * 10 ^ N.of_nat fuel)%N → number_of (digits_fuel fuel n) = n.
Proof.
  revert n. induction fuel as [|fuel IH]; intros n Hn.
  - simpl in *. unfold number_of. simpl.
    rewrite digit_value_digit_char by (apply N.mod_lt; lia).
    rewrite N.mod_small; lia.
  - cbn [digits_fuel]. destruct (n <? 10)%N eqn:Hlt.
    + apply N.ltb_lt in Hlt. unfold number_of. simpl.
      rewrite digit_value_digit_char; lia.
    + rewrite number_of_snoc, IH.
      * rewrite digit_value_digit_char by (apply N.mod_lt; lia).
        pose proof (N.div_mod' n 10). lia.
      * rewrite Nat2N.inj_succ, N.pow_succ_r' in Hn.
        apply N.Div0.div_lt_upper_bound. lia.
Qed.

Lemma number_of_digits n : number_of (digits n) = n.
Proof.
  apply number_of_digits_fuel. rewrite N2Nat.id.
  destruct n as [|p]; [done|].
  pose proof (N.size_gt (Npos p)) as Hsize.
  assert (2 ^ N.size (Npos p) ≤ 10 ^ N.size (Npos p))%N
    by (apply N.pow_le_mono_l; lia).
  lia.
Qed.

Lemma decimal_places h :
  (100 * (h / 100) + 10 * ((h / 10) mod 10) + h mod 10 = h)%N.
Proof.
  pose proof (N.div_mod' h 10). pose proof (N.div_mod' (h / 10) 10).
  rewrite N.Div0.div_div in *. change (10 * 10)%N with 100%N in *. lia.
Qed.

Lemma round_half_even_nearest num den :
  (0 < den)%N →
  let h := round_half_even num den in
  (2 * (h * den) ≤ 2 * num + den)%N
  ∧ (2 * num ≤ 2 * (h * den) + den)%N
  ∧ ((2 * (num mod den))%N = den → N.even h = true).
Proof.
  intros Hden. unfold round_half_even.
  pose proof (N.div_mod' num den) as Hdiv.
  pose proof (N.mod_lt num den) as Hmod.
  set (q := (num / den)%N) in *. set (r := (num mod den)%N) in *.
  destruct (2 * r <? den)%N eqn:H1; [apply N.ltb_lt in H1|apply N.ltb_ge in H1].
  { cbv zeta. split; [nia|]. split; [nia|lia]. }
  destruct (den <? 2 * r)%N eqn:H2; [apply N.ltb_lt in H2|apply N.ltb_ge in H2].
  { cbv zeta. split; [nia|]. split; [nia|lia]. }
  destruct (N.even q) eqn:Hq; cbv zeta.
  - split; [nia|]. split; [nia|done].
  - split; [nia|]. split; [nia|]. intros _.
    by rewrite N.add_1_r, N.even_succ, <- N.negb_even, Hq.
Qed.

(** ** The properties *)

(** X1: the job records put on the job queue are those of the chunks
    the submission loop has gone through, one for each chunk and in the
    order of the chunks; they leave the queue in that order, and each
    has been taken at most once: those taken followed by those still on
    the queue are those put. *)
Theorem jobs_leave_in_chunk_order a sched :
  let s := run a sched in
  ∃ done, chunks a = done ++ pending a (pc (coord s))
          ∧ jobs_put (events s) = mk_job a <$> done
          ∧ jobs_got (events s) ++ jobs_on (job_q (svc s))
            = mk_job a <$> done.
Proof.
  intros s. destruct (dispatched_in_order_run a sched) as (done & ? & Hp & Hg).
  exists done. fold s in Hp, Hg. by rewrite Hg.
Qed.

(** X2: a worker calls the function of each job it has taken, once and
    in the order it took them; only the job taken last may still wait
    for its call. *)
Theorem worker_calls_what_it_took a sched i w :
  let s := run a sched in
  peons s !! i = Some w →
  (VJob <$> calls (wtrace i s)) ++ jobs_on (holding w)
  = jobs_got (wtrace i s).
Proof.
  intros s Hi. pose proof (calls_what_it_took_run a sched i) as Hrun.
  unfold calls_what_it_took in Hrun. fold s in Hrun. by rewrite Hi in Hrun.
Qed.

(** X3: every result record collected or waiting on the result queue is
    the answer to a submitted chunk: it carries the job record of that
    chunk and what its call returned, or [ERROR] if the call raised a
    [NameError]. *)
Theorem results_answer_submitted_chunks a sched :
  let s := run a sched in
  Forall (λ r, ∃ c, c ∈ chunks a
                    ∧ recognized (read_file (obj a) c) = true
                    ∧ r = answer_of a c)
         (results (coord s) ++ result_q (svc s)).
Proof.
  intros s. destruct (results_are_answers_run a sched) as (Hrs & Hrq & _).
  apply Forall_app. by split.
Qed.

(** X4: when no call raises anything but a [NameError], the results the
    coordinator has when it leaves the collection loop are, in some
    order, the answers to the chunks, one for each chunk. *)
Theorem collected_results_are_the_answers a sched :
  let s := run a sched in
  no_unrecognized_failure a = true →
  collected (pc (coord s)) = true →
  results (coord s) ≡ₚ answer_of a <$> chunks a.
Proof.
  intros s Hno Hcol.
  destruct (all_answers_run a sched Hno) as (done & Hdone & Hperm).
  destruct (inv_run a sched) as (_ & _ & Hinv).
  fold s in Hdone, Hperm, Hinv. cbv zeta in Hinv.
  assert (pending a (pc (coord s)) = []
          ∧ in_flight (svc s) (peons s) = 0) as [Hpend Hfl].
  { destruct (pc (coord s)); try done; by destruct_and?. }
  rewrite Hpend, app_nil_r in Hdone. subst done.
  unfold in_flight in Hfl.
  rewrite (nil_length_inv (result_q (svc s))) in Hperm by lia.
  rewrite in_hands_nil, to_come_nil in Hperm by lia.
  by rewrite !app_nil_r in Hperm.
Qed.

(** X5: the result queue is first in, first out: the results collected,
    followed by those waiting on the queue, are the results the workers
    have put, in the order they were put. *)
Theorem results_are_collected_in_put_order a sched :
  let s := run a sched in
  results (coord s) ++ result_q (svc s) = results_put_in_order (events s).
Proof. apply results_in_put_order_run. Qed.

(** X6: no worker retires early: a worker that has taken the poison
    pill shows that the coordinator has sent it, with a result collected
    for every chunk and nothing left in flight. *)
Theorem no_worker_retires_early a sched i w :
  let s := run a sched in
  peons s !! i = Some w → retired w = true →
  pill_sent (pc (coord s)) = true
  ∧ length (results (coord s)) = length (chunks a)
  ∧ in_flight (svc s) (peons s) = 0.
Proof.
  cbv zeta. intros Hi Hw.
  destruct (pill_sent (pc (coord (run a sched)))) eqn:Hsent.
  - split; [done|]. destruct (inv_run a sched) as (_ & _ & Hinv).
    cbv zeta in Hinv.
    destruct (pc (coord (run a sched))); try done; by destruct_and?.
  - pose proof (no_early_retirement_run a sched Hsent).
    pose proof (count_lookup_pos retired _ _ _ Hi Hw). lia.
Qed.

(** X7: every chunk is accounted for exactly once, at any time: it is
    still to be submitted, or its job is in flight (on the job queue, in
    the hands of a worker, or its result on the result queue), or its
    result is collected, or its call ended in an exception that
    [except NameError] does not catch. *)
Theorem every_chunk_is_accounted_for a sched :
  let s := run a sched in
  length (pending a (pc (coord s))) + in_flight (svc s) (peons s)
  + length (results (coord s)) + lost_calls s
  = length (chunks a).
Proof.
  intros s. pose proof (accounted_run a sched) as Hacc.
  unfold accounted in Hacc. fold s in Hacc. lia.
Qed.

(** X8: one lost job stalls the run for good: after a call that ended
    in an exception [except NameError] does not catch, and whatever
    happens next, the coordinator has fewer results than chunks, does
    not leave the collection loop and does not send the poison pill, and
    no worker retires. *)
Theorem lost_job_stalls_the_run a sched :
  0 < lost_calls (run a sched) →
  ∀ more,
    let s' := exec a more (run a sched) in
    length (results (coord s')) < length (chunks a)
    ∧ collected (pc (coord s')) = false
    ∧ count is_pill_put (ctrace s') = 0
    ∧ count retired (peons s') = 0.
Proof.
  intros Hlost more s'.
  assert (s' = run a (sched ++ more)) as Hs'
    by (unfold s', run; by rewrite exec_app).
  assert (lost_calls (run a sched) ≤ lost_calls s') as Hmono.
  { destruct (trace_grows a more (run a sched)) as (tr & Htr).
    unfold lost_calls, events. fold s' in Htr.
    rewrite Htr, fmap_app, count_app. lia. }
  pose proof (accounted_run a (sched ++ more)) as Hacc.
  pose proof (pill_put_once a (sched ++ more)) as Hput.
  pose proof (no_early_retirement_run a (sched ++ more)) as Hret.
  destruct (inv_run a (sched ++ more)) as (_ & _ & Hinv).
  unfold accounted in Hacc. cbv zeta in Hput, Hret, Hinv.
  rewrite <- Hs' in Hacc, Hput, Hret, Hinv.
  split; [lia|].
  assert (collected (pc (coord s')) = false) as Hcol.
  { destruct (pc (coord s')); try done; destruct_and?; lia. }
  assert (pill_sent (pc (coord s')) = false) as Hsent
    by (by destruct (pc (coord s'))).
  split; [done|]. split; [by rewrite Hput, Hsent | by apply Hret].
Qed.


(** X12: the numeral written for a finite score reads, without its
    sign, as the magnitude of the score in hundredths, rounded to the
    nearest hundredth, and to the even one when two are equally near:
    with [h] the number spelled by the digits before and after the
    point, [h] is [m * 2 ^ e * 100] when that is an integer, and for a
    negative exponent [-p] it differs from [m * 100 / 2 ^ p] by at most
    one half. *)
Theorem score_is_written_to_the_nearest_hundredth neg m e :
  ∃ ip d1 d2,
    format_2f_chars (FFinite neg m e)
    = (if neg then ["-"%char] else []) ++ ip ++ ["."%char; d1; d2]
    ∧ let h := (100 * number_of ip + 10 * digit_value d1
                + digit_value d2)%N in
      match e with
      | Z0 => h = (m * 100)%N
      | Zpos p => h = (m * 2 ^ Npos p * 100)%N
      | Zneg p =>
          let num := (m * 100)%N in
          let den := (2 ^ Npos p)%N in
          (2 * (h * den) ≤ 2 * num + den)%N
          ∧ (2 * num ≤ 2 * (h * den) + den)%N
          ∧ ((2 * (num mod den))%N = den → N.even h = true)
      end.
Proof.
  set (h := hundredths m e).
  exists (digits (h / 100)), (digit_char ((h / 10) mod 10)),
    (digit_char (h mod 10)).
  split; [done|].
  rewrite number_of_digits, !digit_value_digit_char
    by (apply N.mod_lt; lia).
  rewrite decimal_places. unfold h, hundredths.
  destruct e as [|p|p]; [done|done|].
  apply round_half_even_nearest.
  apply N.neq_0_lt_0, N.pow_nonzero. lia.
Qed.

End Protocol.

(** * A concrete instance

    Chunks are numbered, a metric is a number, the report is keyed by
    position. *)

Module Demo.

#[global] Instance str_nat : Str nat :=
  λ n, String.string_of_list_ascii (digits (N.of_nat n)).

(** Chunk 0 names a function that cannot be resolved. *)
Definition read_ok (c : nat) : @outcome nat :=
  match c with
  | 0 => Raised NameError
  | _ => Returned (10 * c)
  end.

(** Chunk 0 raises [queue.Empty], chunk 1 a [ValueError]. *)
Definition read_flaky (c : nat) : @outcome nat :=
  match c with
  | 0 => Raised QueueEmpty
  | 1 => Raised (OtherError "ValueError")
  | _ => Returned (10 * c)
  end.

(** One position per result, with half the metric as its score. *)
Definition averages (rs : list (@result nat nat)) (flag : bool)
  : @dict nat :=
  imap (λ i r, (S i, match r_result r with
                     | OMetric m => FFinite false (N.of_nat m) (-1)
                     | OStr _ => FNan
                     end)) rs.

Definition fastqc_ok : FastQC :=
  {| read_file := read_ok; calc_avg := averages |}.
Definition fastqc_flaky : FastQC :=
  {| read_file := read_flaky; calc_avg := averages |}.

Definition three_chunks : server_args :=
  ServerArgs fastqc_ok [0; 1; 2] "localhost" 5000 None.
Definition flaky_chunks : server_args :=
  ServerArgs fastqc_flaky [0; 1; 2] "localhost" 5000 None.
Definition no_chunks : server_args :=
  ServerArgs fastqc_ok [] "localhost" 5000 (Some "report.csv").

Definition job_of (a : @server_args nat nat nat) (c : nat) : @job nat nat :=
  Job (read_file (obj a)) c.

(** The service is started, two workers attach, the three jobs are
    submitted and the collection loop is entered. *)
Definition submitting : list action :=
  [ACoord] ++ run_workers 2 ++ [ACoord; ACoord; ACoord; ACoord].

(** Worker 0 takes the first job. *)
Definition first_fetch : list action := submitting ++ [APeon 0].

(** Worker 1 takes the second job. *)
Definition second_fetch : list action := first_fetch ++ [APeon 1].

(** The workers do all three jobs; the three results wait on the result
    queue. *)
Definition results_waiting : list action :=
  second_fetch
  ++ [APeon 0; APeon 1; APeon 0; APeon 1; APeon 0; APeon 0; APeon 0].

(** The coordinator collects the three results and sends the pill. *)
Definition pill_sent_at : list action :=
  results_waiting ++ [APeon 1; ACoord; ACoord; ACoord; ACoord].

(** Worker 1 takes the pill and has not put it back yet. *)
Definition pill_held_at : list action := pill_sent_at ++ [APeon 1].

(** Both workers retire, the coordinator shuts down and writes. *)
Definition whole_run : list action :=
  pill_held_at
  ++ [APeon 0; APeon 1; APeon 0; ACoord; APeon 0; ACoord; ACoord].

End Demo.

(** ** The model at work *)

Example digits_1024 : String.string_of_list_ascii (digits 1024) = "1024".
Proof. reflexivity. Qed.

Example format_tie_to_even :
  format_2f (FFinite false 1 (-3)) = "0.12"
  ∧ format_2f (FFinite false 3 (-3)) = "0.38"
  ∧ format_2f (FFinite true 5 (-1)) = "-2.50"
  ∧ format_2f (FFinite false 35 0) = "35.00"
  ∧ format_2f (FFinite false 1 10) = "1024.00"
  ∧ format_2f (FFinite true 0 0) = "-0.00"
  ∧ format_2f (FInf true) = "-inf".
Proof. repeat split; reflexivity. Qed.

Example whole_run_done :
  let s := run Demo.three_chunks Demo.whole_run in
  pc (coord s) = CDone
  ∧ r_result <$> results (coord s) = [OStr ERROR; OMetric 10; OMetric 20]
  ∧ peons s = [WTerminated; WTerminated]
  ∧ job_q (svc s) = [VStr POISONPILL]
  ∧ ctrace s
    = [EvStart "localhost" 5000;
       EvJobPut (VJob (Demo.job_of Demo.three_chunks 0));
       EvJobPut (VJob (Demo.job_of Demo.three_chunks 1));
       EvJobPut (VJob (Demo.job_of Demo.three_chunks 2));
       EvSleep 2;
       EvResultGet (Some (Result (Demo.job_of Demo.three_chunks 0)
                                 (OStr ERROR)));
       EvResultGet (Some (Result (Demo.job_of Demo.three_chunks 1)
                                 (OMetric 10)));
       EvResultGet (Some (Result (Demo.job_of Demo.three_chunks 2)
                                 (OMetric 20)));
       EvJobPut (VStr POISONPILL); EvSleep 5; EvShutdown;
       EvWrite "outfile.csv"
               [["base position"; "phred score"]; ["1"; "nan"];
                ["2"; "5.00"]; ["3"; "10.00"]]].
Proof. vm_compute. repeat split. Qed.

Example results_waiting_collected :
  let a := Demo.three_chunks in
  let s := run a Demo.results_waiting in
  let s' := exec a [ACoord; ACoord; ACoord] s in
  pc (coord s) = CCollect ∧ results (coord s) = []
  ∧ length (result_q (svc s)) = 3
  ∧ pc (coord s') = CTerminate ∧ results (coord s') = result_q (svc s).
Proof. vm_compute. repeat split. Qed.

Example queue_empty_failure_at_work :
  let a := Demo.flaky_chunks in
  let s := exec a [APeon 0; APeon 0] (run a Demo.first_fetch) in
  peons s = [WExecuting (VJob (Demo.job_of a 1)); WFetching]
  ∧ wtrace 0 s
    = [EvJobGet (Some (VJob (Demo.job_of a 0)));
       EvCall (Demo.job_of a 0); EvSleep 1;
       EvJobGet (Some (VJob (Demo.job_of a 1)))]
  ∧ result_q (svc s) = []
  ∧ job_q (svc s) = [VJob (Demo.job_of a 2)].
Proof. vm_compute. repeat split. Qed.

(** ** Instances of the claims *)


(** C3 on the first job of the three, whose function cannot be
    resolved. *)
Lemma name_error_is_reported_witness :
  let a := Demo.three_chunks in
  let j := Demo.job_of a 0 in
  let s := run a Demo.first_fetch in
  let s' := exec a [APeon 0; APeon 0] s in
  (peons s !! 0 = Some (WExecuting (VJob j))
   ∧ fn j (args j) = Raised NameError
   ∧ isinstance_NameError NameError = true)
  ∧ peons s' !! 0 = Some WFetching
  ∧ result_q (svc s') = result_q (svc s) ++ [Result j (OStr ERROR)]
  ∧ job_q (svc s') = job_q (svc s)
  ∧ wtrace 0 s'
    = wtrace 0 s ++ [EvCall j; EvResultPut (Result j (OStr ERROR))].
Proof.
  intros a j s s'. split; [repeat split; reflexivity|].
  apply (name_error_is_reported a Demo.first_fetch 0 j NameError);
    reflexivity.
Defined.

(** C4 on the second job of the flaky three, which raises a
    [ValueError]. *)
Lemma unrecognized_failure_loses_job_witness :
  let a := Demo.flaky_chunks in
  let j := Demo.job_of a 1 in
  let e := OtherError "ValueError" in
  let s := run a Demo.second_fetch in
  let s' := step a (APeon 1) s in
  (peons s !! 1 = Some (WExecuting (VJob j))
   ∧ fn j (args j) = Raised e
   ∧ isinstance_NameError e = false)
  ∧ result_q (svc s') = result_q (svc s)
  ∧ job_q (svc s') = job_q (svc s)
  ∧ results_put s' = results_put s
  ∧ (isinstance_Empty e = false →
     peons s' !! 1 = Some (WCrashed e)
     ∧ ∀ more, peons (exec a more s') !! 1 = Some (WCrashed e)
               ∧ wtrace 1 (exec a more s') = wtrace 1 s ++ [EvCall j])
  ∧ (∀ more k, count is_job_put (wtrace k (exec a more s')) = 0)
  ∧ (∀ more, count is_job_put (ctrace (exec a more s')) ≤ 3).
Proof.
  intros a j e s s'. split; [repeat split; reflexivity|].
  apply (unrecognized_failure_loses_job a Demo.second_fetch 1 j e);
    reflexivity.
Defined.

(** C6 on no chunks, with two workers polling. *)
Lemma empty_submission_is_no_op_witness :
  let a := Demo.no_chunks in
  let s := run a [ACoord; ASpawn; ASpawn; APeon 0; APeon 1; ACoord; APeon 0] in
  chunks a = []
  ∧ job_q (svc s) = [] ∧ result_q (svc s) = []
  ∧ count is_queue_op (ctrace s) = 0
  ∧ (∀ i, forallb idle_fetch (wtrace i s) = true)
  ∧ (∀ i, count is_call (wtrace i s) = 0)
  ∧ pc (coord (step a ACoord init)) = CNothing
  ∧ (pc (coord s) = CNothing → step a ACoord s = s).
Proof.
  intros a s. split; [reflexivity|].
  apply (empty_submission_is_no_op a
           [ACoord; ASpawn; ASpawn; APeon 0; APeon 1; ACoord; APeon 0]).
  reflexivity.
Defined.


(** ** Where the program differs from a claim *)


(** C4, as stated, fails: a job whose call raises [queue.Empty], which
    [except NameError] does not catch, leaves the worker running: the
    handler of the polling loop catches it. *)
Lemma queue_empty_failure_keeps_worker_running :
  ¬ (∀ (j : @job nat nat) (e : exn) (sv : service),
       fn j (args j) = Raised e → isinstance_NameError e = false →
       stopped (peon_step (WExecuting (VJob j)) sv).1.1 = true).
Proof.
  intros Hclaim.
  specialize (Hclaim (Demo.job_of Demo.flaky_chunks 0) QueueEmpty
                     (Service true [] []) eq_refl eq_refl).
  discriminate Hclaim.
Qed.

(** C9, as stated, fails: a score that is not a number is written
    without any decimal digit. *)
Lemma nan_score_has_no_decimals :
  ¬ (∀ (d : @dict nat) path rows,
       csv_writer d None = Some (path, header :: rows) →
       Forall (λ row, ∃ k f, row = [k; f] ∧ two_decimals f = true) rows).
Proof.
  intros Hclaim.
  specialize (Hclaim [(1, FNan)] "outfile.csv" [["1"; "nan"]] eq_refl).
  apply Forall_inv in Hclaim as (k & f & [= <- <-] & Hf).
  discriminate Hf.
Qed.

(** ** Instances of the further properties *)

(** X2 on the three chunks: worker 0 has done the first job and holds
    the third. *)
Lemma worker_calls_what_it_took_witness :
  let a := Demo.three_chunks in
  let s := run a (Demo.second_fetch ++ [APeon 0; APeon 0; APeon 0]) in
  let w := WExecuting (VJob (Demo.job_of a 2)) in
  peons s !! 0 = Some w
  ∧ (VJob <$> calls (wtrace 0 s)) ++ jobs_on (holding w)
    = jobs_got (wtrace 0 s).
Proof.
  intros a s w. split; [reflexivity|].
  apply (worker_calls_what_it_took a
           (Demo.second_fetch ++ [APeon 0; APeon 0; APeon 0]) 0 w).
  reflexivity.
Defined.

(** X4 on the whole run over the three chunks. *)
Lemma collected_results_are_the_answers_witness :
  let a := Demo.three_chunks in
  let s := run a Demo.whole_run in
  no_unrecognized_failure a = true
  ∧ collected (pc (coord s)) = true
  ∧ results (coord s) ≡ₚ answer_of a <$> chunks a.
Proof.
  intros a s. split; [reflexivity|]. split; [reflexivity|].
  apply (collected_results_are_the_answers a Demo.whole_run); reflexivity.
Defined.

(** X6 on the three chunks: worker 1 has taken the pill. *)
Lemma no_worker_retires_early_witness :
  let a := Demo.three_chunks in
  let s := run a Demo.pill_held_at in
  let w : @wstate nat nat := WRetiring in
  (peons s !! 1 = Some w ∧ retired w = true)
  ∧ pill_sent (pc (coord s)) = true
  ∧ length (results (coord s)) = length (chunks a)
  ∧ in_flight (svc s) (peons s) = 0.
Proof.
  intros a s w. split; [split; reflexivity|].
  apply (no_worker_retires_early a Demo.pill_held_at 1 w);
    reflexivity.
Defined.

(** X8 on the flaky three: the call of the second job has raised a
    [ValueError]. *)
Lemma lost_job_stalls_the_run_witness :
  let a := Demo.flaky_chunks in
  let s := run a (Demo.second_fetch ++ [APeon 1]) in
  0 < lost_calls s
  ∧ ∀ more,
      let s' := exec a more s in
      length (results (coord s')) < length (chunks a)
      ∧ collected (pc (coord s')) = false
      ∧ count is_pill_put (ctrace s') = 0
      ∧ count retired (peons s') = 0.
Proof.
  intros a s. split; [vm_compute; lia|].
  apply (lost_job_stalls_the_run a (Demo.second_fetch ++ [APeon 1])).
  vm_compute. lia.
Defined.

(** X9 on the three chunks: worker 1 holds the pill, worker 0 is
    fetching. *)
Lemma fetching_worker_can_retire_witness :
  let a := Demo.three_chunks in
  let s := run a Demo.pill_held_at in
  (pill_sent (pc (coord s)) = true ∧ serving (svc s) = true
   ∧ peons s !! 0 = Some WFetching)
  ∧ ∃ acts, length acts ≤ 3 ∧ Forall (λ act, act ≠ ACoord) acts
            ∧ peons (exec a acts s) !! 0 = Some WTerminated
            ∧ job_q (svc (exec a acts s)) = [VStr POISONPILL]
            ∧ coord (exec a acts s) = coord s.
Proof.
  intros a s. split; [repeat split; reflexivity|].
  apply (fetching_worker_can_retire a Demo.pill_held_at 0); reflexivity.
Defined.



